(** * vdsm-ci: the post-wizard screen loop and the DSM version scraper

    A shallow embedding of two pieces of the repository:

    - [handle_post_wizard] of [provision-dsm.py]: the polling loop that
      marks, acts on and dismisses the known wizard screens;
    - [scrape_dsm_version] and [main] of [scripts/scrape-dsm-version.py].

    The browser page, the clock and the file system are external to the
    program; they are taken as an explicit world that every driver call
    transforms.  Python exceptions are an explicit outcome. *)

From Stdlib Require Import ZArith QArith String Ascii List Lia.
From stdpp Require Import base gmap sets list strings sorting pretty.

Open Scope string_scope.

(** ** Python glue shared by both scripts *)

Module Py.

(** The exception classes the two scripts can tell apart:
    [except PlaywrightTimeoutError] and [except Exception]. *)
Inductive exn :=
| PlaywrightTimeoutError (msg : string)
| Exception (cls msg : string)
| BaseException (cls msg : string).

Inductive outcome (A : Type) :=
| Returns (a : A)
| Raises (e : exn).
Arguments Returns {A} a.
Arguments Raises {A} e.

(** [e.__class__.__name__]; Playwright's timeout class is itself called
    [TimeoutError]. *)
Definition class_name (e : exn) : string :=
  match e with
  | PlaywrightTimeoutError _ => "TimeoutError"
  | Exception cls _ => cls
  | BaseException cls _ => cls
  end.

(** [str(e)] *)
Definition message (e : exn) : string :=
  match e with
  | PlaywrightTimeoutError msg => msg
  | Exception _ msg => msg
  | BaseException _ msg => msg
  end.

(** [sep.join(l)] *)
Fixpoint join (sep : string) (l : list string) : string :=
  match l with
  | [] => EmptyString
  | [x] => x
  | x :: rest => x ++ sep ++ join sep rest
  end.

(** Python orders [str] by code point, which is [String.leb]. *)
Definition str_le (a b : string) : Prop := String.leb a b = true.

#[global] Instance str_le_dec a b : Decision (str_le a b).
Proof. unfold str_le. apply _. Defined.

(** [sorted(s)] for a set of strings *)
Definition sorted (s : gset string) : list string :=
  merge_sort str_le (elements s).

End Py.

Import Py.

(** ** The post-wizard loop of [provision-dsm.py] *)

Module PostWizard.

(** *** The page driver *)

(** [page.locator(sel)], [loc.first] and [loc.locator(sel)]. *)
Inductive locator :=
| Locator (selector : string)
| First (loc : locator)
| Within (parent : locator) (selector : string).

Inductive wait_state := Visible | Hidden.

(** What the script asks of Playwright, [asyncio] and [time].  Every call
    may change the world and may raise. *)
Record driver (World : Type) := {
  time_time : World → Q;
  asyncio_sleep : Q → World → World;
  is_visible : locator → World → outcome bool * World;
  wait_for : locator → wait_state → Z → World → outcome unit * World;
  click : locator → World → outcome unit * World;
  wait_for_load_state : string → Z → World → outcome unit * World;
}.
Arguments time_time {World} _ _.
Arguments asyncio_sleep {World} _ _ _.
Arguments is_visible {World} _ _ _.
Arguments wait_for {World} _ _ _ _ _.
Arguments click {World} _ _ _.
Arguments wait_for_load_state {World} _ _ _ _.

(** *** Screens *)

(** One entry of [wizard_screens]; the keys [action] and [button] are
    optional in the source dictionaries. *)
Record screen (World : Type) := {
  name : string;
  identifier : string;
  action : option (World → outcome unit * World);
  button : option string;
}.
Arguments name {World} _.
Arguments identifier {World} _.
Arguments action {World} _.
Arguments button {World} _.

(** What the loop did, in the order it did it (ghost state). *)
Inductive event :=
| EvQuery (screen_name : string)     (* identifier.is_visible() called *)
| EvVisible (screen_name : string)   (* it returned True: screen_found = True *)
| EvSeenAdd (screen_name : string)   (* screens_seen.add(screen_name) *)
| EvAction (screen_name : string)    (* screen["action"](page) called *)
| EvClick (screen_name : string)     (* button.first.click() called *)
| EvHidden (screen_name : string)    (* identifier.wait_for(hidden) returned *)
| EvSettled (screen_name : string).  (* wait_for_load_state returned *)

#[global] Instance event_eq_dec : EqDecision event.
Proof. solve_decision. Defined.

Inductive exit_path := FullCoverage | IdleConvergence.

(** Outcome of one pass through the body of [while True]. *)
Inductive step := Again | Exit (p : exit_path).

(** How the body of [for screen in wizard_screens] ends. *)
Inductive flow := Next | Break.

Definition timeout_seconds : nat := 300.

Section Loop.

Context {World : Type}.
Variable drv : driver World.

(** The mutable locals of [handle_post_wizard], the world, what was
    printed and the ghost trace; both lists are newest first. *)
Record machine := {
  world : World;
  screens_seen : gset string;
  screen_found : bool;
  consecutive_no_match : nat;
  stdout : list string;
  events : list event;
}.

Definition M (A : Type) : Type := machine → outcome A * machine.

Definition ret {A} (a : A) : M A := λ m, (Returns a, m).

Definition bind {A B} (c : M A) (k : A → M B) : M B :=
  λ m, match c m with
       | (Returns a, m') => k a m'
       | (Raises e, m') => (Raises e, m')
       end.

Definition raise {A} (e : exn) : M A := λ m, (Raises e, m).

(** [try: c  except ... as e: h e] *)
Definition try_except {A} (c : M A) (h : exn → M A) : M A :=
  λ m, match c m with
       | (Returns a, m') => (Returns a, m')
       | (Raises e, m') => h e m'
       end.

Notation "'let*' x ':=' c 'in' k" := (bind c (λ x, k))
  (at level 10, x name, c at level 100, k at level 200).
Notation "c ;; k" := (bind c (λ _, k))
  (at level 100, k at level 200, right associativity).

Definition set_world (w : World) (m : machine) : machine :=
  {| world := w; screens_seen := screens_seen m; screen_found := screen_found m;
     consecutive_no_match := consecutive_no_match m;
     stdout := stdout m; events := events m |}.

(** A driver call. *)
Definition page {A} (f : World → outcome A * World) : M A :=
  λ m, let '(r, w) := f (world m) in (r, set_world w m).

Definition sleep (secs : Q) : M unit :=
  λ m, (Returns tt, set_world (asyncio_sleep drv secs (world m)) m).

Definition now : M Q := λ m, (Returns (time_time drv (world m)), m).

Definition print (line : string) : M unit :=
  λ m, (Returns tt,
        {| world := world m; screens_seen := screens_seen m;
           screen_found := screen_found m;
           consecutive_no_match := consecutive_no_match m;
           stdout := line :: stdout m; events := events m |}).

Definition emit (e : event) : M unit :=
  λ m, (Returns tt,
        {| world := world m; screens_seen := screens_seen m;
           screen_found := screen_found m;
           consecutive_no_match := consecutive_no_match m;
           stdout := stdout m; events := e :: events m |}).

Definition get_seen : M (gset string) := λ m, (Returns (screens_seen m), m).

(** [screens_seen.add(screen_name)] *)
Definition seen_add (screen_name : string) : M unit :=
  λ m, (Returns tt,
        {| world := world m; screens_seen := {[screen_name]} ∪ screens_seen m;
           screen_found := screen_found m;
           consecutive_no_match := consecutive_no_match m;
           stdout := stdout m; events := EvSeenAdd screen_name :: events m |}).

Definition set_screen_found (b : bool) : M unit :=
  λ m, (Returns tt,
        {| world := world m; screens_seen := screens_seen m; screen_found := b;
           consecutive_no_match := consecutive_no_match m;
           stdout := stdout m; events := events m |}).

(** [screen_found = True], reached when [is_visible()] returned [True]. *)
Definition found_visible (screen_name : string) : M unit :=
  λ m, (Returns tt,
        {| world := world m; screens_seen := screens_seen m; screen_found := true;
           consecutive_no_match := consecutive_no_match m;
           stdout := stdout m; events := EvVisible screen_name :: events m |}).

Definition get_screen_found : M bool := λ m, (Returns (screen_found m), m).

Definition set_consecutive_no_match (n : nat) : M unit :=
  λ m, (Returns tt,
        {| world := world m; screens_seen := screens_seen m;
           screen_found := screen_found m; consecutive_no_match := n;
           stdout := stdout m; events := events m |}).

Definition get_consecutive_no_match : M nat :=
  λ m, (Returns (consecutive_no_match m), m).

Variable wizard_screens : list (screen World).

(** [{screen["name"] for screen in wizard_screens}] *)
Definition all_screen_names : gset string :=
  list_to_set (name <$> wizard_screens).

(** Lines 279-313: a visible screen that was not seen before. *)
Definition handle_screen (screen : screen World) : M flow :=
  let identifier := Locator (identifier screen) in
  let screen_name := name screen in
  seen_add screen_name;;
  let* seen := get_seen in
  print ("[dsm] post-wizard: Detected screen: " ++ screen_name ++ " ("
           ++ pretty (size seen) ++ "/" ++ pretty (size all_screen_names) ++ ")");;
  match action screen with
  | Some act =>
      emit (EvAction screen_name);;
      page act;;
      print ("[dsm] post-wizard: Executed action for " ++ screen_name)
  | None => ret tt
  end;;
  match button screen with
  | Some b =>
      let button := Locator b in
      page (wait_for drv (First button) Visible 10000);;
      emit (EvClick screen_name);;
      page (click drv (First button));;
      print ("[dsm] post-wizard: Clicked button for " ++ screen_name)
  | None => ret tt
  end;;
  page (wait_for drv identifier Hidden 30000);;
  emit (EvHidden screen_name);;
  print ("[dsm] post-wizard: Screen changed from " ++ screen_name);;
  page (wait_for_load_state drv "networkidle" 30000);;
  emit (EvSettled screen_name);;
  ret Break.

(** Lines 270-313: the body of [try]. *)
Definition check_screen (screen : screen World) : M flow :=
  emit (EvQuery (name screen));;
  let* visible := page (is_visible drv (Locator (identifier screen))) in
  if visible : bool then
    found_visible (name screen);;
    let* seen := get_seen in
    if decide (name screen ∈ seen) then ret Next
    else handle_screen screen
  else ret Next.

(** Lines 268-323: [try] with its two handlers. *)
Definition scan_screen (screen : screen World) : M flow :=
  try_except (check_screen screen)
    (λ e, match e with
          | PlaywrightTimeoutError _ => ret Next
          | Exception _ _ =>
              print ("[dsm] post-wizard: FATAL ERROR handling screen "
                       ++ name screen ++ ": " ++ class_name e ++ ": " ++ message e);;
              raise e
          | BaseException _ _ => raise e
          end).

(** Lines 267-323: [for screen in wizard_screens]. *)
Fixpoint scan (screens : list (screen World)) : M unit :=
  match screens with
  | [] => ret tt
  | screen :: rest =>
      let* f := scan_screen screen in
      match f with
      | Next => scan rest
      | Break => ret tt
      end
  end.

(** Lines 236-253: the message of the raised [TimeoutError]. *)
Definition timeout_message (unseen : gset string) : string :=
  "Post-wizard automation timed out after " ++ pretty timeout_seconds
    ++ "s. Missing screens: " ++ join ", " (sorted unseen).

(** Lines 236-335: one pass through the body of [while True]. *)
Definition iteration (start_time : Q) : M step :=
  let* t := now in
  let elapsed := (t - start_time)%Q in
  if Qlt_le_dec (inject_Z (Z.of_nat timeout_seconds)) elapsed then
    let* seen := get_seen in
    let unseen := all_screen_names ∖ seen in
    print ("[dsm] post-wizard: FATAL - Timeout after "
             ++ pretty timeout_seconds ++ "s");;
    print ("[dsm] post-wizard: Screens seen: " ++ join ", " (sorted seen));;
    print ("[dsm] post-wizard: Screens NOT seen: " ++ join ", " (sorted unseen));;
    raise (Exception "TimeoutError" (timeout_message unseen))
  else
    let* seen := get_seen in
    if decide (seen = all_screen_names) then
      print ("[dsm] post-wizard: All " ++ pretty (size all_screen_names)
               ++ " expected screens handled");;
      ret (Exit FullCoverage)
    else
      sleep 1;;
      set_screen_found false;;
      scan wizard_screens;;
      let* found := get_screen_found in
      if negb found then
        let* n := get_consecutive_no_match in
        set_consecutive_no_match (n + 1);;
        if (30 <=? n + 1)%nat then
          print "[dsm] post-wizard: No screens detected for 30 seconds, finishing";;
          ret (Exit IdleConvergence)
        else ret Again
      else
        set_consecutive_no_match 0;;
        ret Again.

(** [while True], unrolled at most [fuel] times; [None] when the fuel
    ran out with the loop still going. *)
Fixpoint while_true (fuel : nat) (start_time : Q) : M (option exit_path) :=
  match fuel with
  | O => ret None
  | S fuel' =>
      let* s := iteration start_time in
      match s with
      | Again => while_true fuel' start_time
      | Exit p => ret (Some p)
      end
  end.

(** Lines 229-233: the locals at loop entry. *)
Definition initial (w : World) : machine :=
  {| world := w; screens_seen := ∅; screen_found := false;
     consecutive_no_match := 0; stdout := []; events := [] |}.

(** Lines 229-335. *)
Definition post_wizard_loop (fuel : nat) (w : World)
  : outcome (option exit_path) * machine :=
  while_true fuel (time_time drv w) (initial w).

End Loop.

Arguments machine : clear implicits.
Arguments M : clear implicits.

(** *** The catalog of the script *)

Section Catalog.

Context {World : Type}.
Variable drv : driver World.

Definition then_ {A}
    (c : World → outcome unit * World) (k : World → outcome A * World)
  : World → outcome A * World :=
  λ w, match c w with
       | (Returns _, w') => k w'
       | (Raises e, w') => (Raises e, w')
       end.

Definition pause (secs : Q) : World → outcome unit * World :=
  λ w, (Returns tt, asyncio_sleep drv secs w).

(** Lines 132-138. *)
Definition configure_updates_screen : World → outcome unit * World :=
  let radio :=
    Locator "div.v-radio-wrapper[syno-id='welcome-app-select-update-radio-notify']" in
  then_ (click drv radio) (pause (1 # 2)).

(** Lines 140-151. *)
Definition close_notification_setup : World → outcome unit * World :=
  let panel :=
    Locator "div.v-notification-panel:has(div.v-notification-title:text('Notification Setup'))" in
  let close_btn := Within panel "i.close-btn.window-tool-close" in
  then_ (wait_for drv panel Visible 10000)
    (then_ (click drv close_btn) (pause (1 # 2))).

(** Lines 154-201. *)
Definition wizard_screens : list (screen World) :=
  [ {| name := "Update Options";
       identifier := "div.welcome-step-title >> text=/Select an update option/";
       action := Some configure_updates_screen;
       button := Some "button.v-btn-main" |};
    {| name := "Synology Account";
       identifier := "div.welcome-step-title >> text=/Create a Synology Account/";
       action := None;
       button := Some "button[syno-id='welcome-app-wizard-fbar-back']" |};
    {| name := "User Experience";
       identifier := "div.welcome-step-title >> text=/Opt-in for a better user experience/";
       action := None;
       button := Some "button[syno-id='welcome-app-wizard-fbar-next']" |};
    {| name := "File Access Promotion";
       identifier := "div.title >> text=/Securely Access and Share Files From Anywhere/";
       action := None;
       button := Some "button[syno-id='syno-promotion-preinstall-btn-skip']" |};
    {| name := "2FA Promotion";
       identifier := "div.title >> text=/Enable 2-Factor Authentication \(2FA\)/";
       action := None;
       button := Some "button[syno-id='syno-promotion-ss-btn-skip']" |};
    {| name := "Adaptive MFA Promotion";
       identifier := "div.title >> text=/Protect your account with Adaptive MFA/";
       action := None;
       button := Some "button[syno-id='syno-promotion-manually-amfa-btn-give-up']" |};
    {| name := "MFA Warning Confirmation";
       identifier := "div.dialog-content >> text=/We strongly recommend enabling 2FA or Adaptive MFA/";
       action := None;
       button := Some "button[syno-id='promotion-app-window-msgbox-fbar-commit']" |};
    {| name := "Notification Setup";
       identifier := "div.v-notification-title >> text=/Notification Setup/";
       action := Some close_notification_setup;
       button := None |};
    {| name := "Notification Setup Reminder";
       identifier := "div.dialog-content >> text=/You can enable notifications later/";
       action := None;
       button := Some "button[syno-id='window-manager-msg-box-fbar-commit']" |} ].

End Catalog.

(** *** Assertions on machines *)

Section Assertions.

Context {World : Type}.
#[local] Open Scope list_scope.

(** Events in the order they happened. *)
Definition trace (m : machine World) : list event := rev (events m).

(** Wherever [c] starts in [P], it ends in [Q], whether it returns or
    raises. *)
Definition moves {A} (P : machine World → Prop) (c : M World A)
    (Q : machine World → Prop) : Prop :=
  ∀ m, P m → Q (c m).2.

(** The same with the outcome in the postcondition. *)
Definition triple {A} (P : machine World → Prop) (c : M World A)
    (Q : outcome A → machine World → Prop) : Prop :=
  ∀ m, P m → Q (c m).1 (c m).2.

(** [m] after printing [lines], the newest first. *)
Definition printed (lines : list string) (m : machine World) : machine World :=
  {| world := world m; screens_seen := screens_seen m;
     screen_found := screen_found m;
     consecutive_no_match := consecutive_no_match m;
     stdout := lines ++ stdout m; events := events m |}.

Definition neutral (e : event) : Prop :=
  match e with
  | EvSeenAdd _ | EvAction _ | EvClick _ => False
  | _ => True
  end.

(** Event lists, newest first, in which a name is added once, and acted
    on or clicked once and only after it was added. *)
Inductive wf_events : list event → Prop :=
| wf_nil : wf_events []
| wf_add n l : wf_events l → EvSeenAdd n ∉ l → wf_events (EvSeenAdd n :: l)
| wf_action n l :
    wf_events l → EvSeenAdd n ∈ l → EvAction n ∉ l → wf_events (EvAction n :: l)
| wf_click n l :
    wf_events l → EvSeenAdd n ∈ l → EvClick n ∉ l → wf_events (EvClick n :: l)
| wf_neutral e l : wf_events l → neutral e → wf_events (e :: l).

(** The invariant of the loop on the Seen-Set and the events: the set
    only grew from [base], stays within [all], and holds exactly the
    names that were added. *)
Definition seen_inv (all base : gset string) (m : machine World) : Prop :=
  base ⊆ screens_seen m ∧ screens_seen m ⊆ all
    ∧ wf_events (events m)
    ∧ ∀ n, EvSeenAdd n ∈ events m ↔ n ∈ screens_seen m.

(** While a marked screen [n] is being handled: [a] and [c] tell
    whether its action and its click are still to come. *)
Definition acting (all base : gset string) (n : string) (a c : bool)
    (m : machine World) : Prop :=
  seen_inv all base m ∧ n ∈ screens_seen m
    ∧ (a = true → EvAction n ∉ events m)
    ∧ (c = true → EvClick n ∉ events m).

Definition settled (e : event) : Prop :=
  match e with EvSettled _ => True | _ => False end.

(** The events [m] has on top of those of [m0] contain no [EvSettled]. *)
Definition unsettled_since (m0 m : machine World) : Prop :=
  ∃ new, events m = new ++ events m0 ∧ Forall (λ e, ¬ settled e) new.

(** The newest event of [m] is an [EvSettled], the only one since [m0]. *)
Definition settled_top (m0 m : machine World) : Prop :=
  ∃ n new, events m = EvSettled n :: new ++ events m0
    ∧ Forall (λ e, ¬ settled e) new.

(** Among the events [m] has on top of those of [m0], an [EvSettled] is
    the last one and there is no other before it. *)
Definition settled_last_since (m0 m : machine World) : Prop :=
  ∃ new, events m = new ++ events m0
    ∧ ∀ pre post n, rev new = pre ++ EvSettled n :: post →
        post = [] ∧ Forall (λ e, ¬ settled e) pre.

(** Lines 263-266: the machine when the scan of an iteration starts. *)
Definition before_scan (drv : driver World) (m : machine World) : machine World :=
  {| world := asyncio_sleep drv 1 (world m); screens_seen := screens_seen m;
     screen_found := false;
     consecutive_no_match := consecutive_no_match m;
     stdout := stdout m; events := events m |}.

(** Lines 325-335: what follows a scan that ended in [m]. *)
Definition after_scan (m : machine World) : outcome step * machine World :=
  let count (n : nat) :=
    {| world := world m; screens_seen := screens_seen m;
       screen_found := screen_found m; consecutive_no_match := n;
       stdout := stdout m; events := events m |} in
  if screen_found m then (Returns Again, count 0%nat)
  else if (30 <=? consecutive_no_match m + 1)%nat then
    (Returns (Exit IdleConvergence),
     printed ["[dsm] post-wizard: No screens detected for 30 seconds, finishing"%string]
       (count (consecutive_no_match m + 1)%nat))
  else (Returns Again, count (consecutive_no_match m + 1)%nat).

(** What the action of a screen does to the page; nothing when the
    screen has none. *)
Definition run_action (screen : screen World) : World → outcome unit * World :=
  match action screen with
  | Some act => act
  | None => λ w, (Returns tt, w)
  end.

(** The page after one scan in which every query answers [False];
    [None] if some query answers otherwise. *)
Fixpoint probe (drv : driver World) (screens : list (screen World)) (w : World)
  : option World :=
  match screens with
  | [] => Some w
  | screen :: rest =>
      match is_visible drv (Locator (identifier screen)) w with
      | (Returns false, w') => probe drv rest w'
      | _ => None
      end
  end.

(** For the next [n] iterations the clock is within the budget at the
    check and no screen of the catalog is visible. *)
Fixpoint idle_for (drv : driver World) (catalog : list (screen World))
    (n : nat) (start_time : Q) (w : World) : Prop :=
  match n with
  | O => True
  | S n' =>
      ¬ (inject_Z 300 < time_time drv w - start_time)%Q
      ∧ match probe drv catalog (asyncio_sleep drv 1 w) with
        | Some w' => idle_for drv catalog n' start_time w'
        | None => False
        end
  end.

(** The page after the queries of [screens] when none of them answers
    [True]: each one answers [False], or times out, which lines 315-317
    take as not visible; [None] if a query answers [True] or fails
    otherwise. *)
Fixpoint skipped (drv : driver World) (screens : list (screen World)) (w : World)
  : option World :=
  match screens with
  | [] => Some w
  | screen :: rest =>
      match is_visible drv (Locator (identifier screen)) w with
      | (Returns false, w') => skipped drv rest w'
      | (Raises (PlaywrightTimeoutError _), w') => skipped drv rest w'
      | _ => None
      end
  end.

Definition is_visible_event (e : event) : Prop :=
  match e with EvVisible _ => True | _ => False end.

#[global] Instance is_visible_event_dec e : Decision (is_visible_event e).
Proof. destruct e; simpl; apply _. Defined.

(** Since [m0], [screen_found] is set exactly if some query answered
    [True]; the counter is untouched. *)
Definition found_iff_visible (m0 m : machine World) : Prop :=
  ∃ new, events m = new ++ events m0
    ∧ (screen_found m = true ↔ Exists is_visible_event new)
    ∧ consecutive_no_match m = consecutive_no_match m0.

End Assertions.

(** *** A scripted page, for running the loop on concrete inputs *)

Module Sim.

(** What the page answers to one driver call, and how long the call
    takes in seconds. *)
Inductive reply := Yes | No | TimesOut | Fails (cls msg : string).

(** The clock and the answers still to come.  Once the script is used
    up nothing is visible and every wait returns at once. *)
Record world := { clock : Q; script : list (reply * Q) }.

Definition answer {A} (yes no : A) (w : world) : outcome A * world :=
  match script w with
  | [] => (Returns no, w)
  | (r, d) :: rest =>
      let w' := {| clock := Qred (clock w + d); script := rest |} in
      match r with
      | Yes => (Returns yes, w')
      | No => (Returns no, w')
      | TimesOut => (Raises (PlaywrightTimeoutError "Timeout exceeded."), w')
      | Fails cls msg => (Raises (Exception cls msg), w')
      end
  end.

Definition drv : driver world :=
  {| time_time := clock;
     asyncio_sleep := λ secs w,
       {| clock := Qred (clock w + secs); script := script w |};
     is_visible := λ _, answer true false;
     wait_for := λ _ _ _, answer tt tt;
     click := λ _, answer tt tt;
     wait_for_load_state := λ _ _, answer tt tt |}.

Definition start (replies : list (reply * Q)) : world :=
  {| clock := 0; script := replies |}.

(** A screen with a dismiss button and no action, and one with an
    action and no button. *)
Definition with_button (n : string) : screen world :=
  {| name := n; identifier := "#" ++ n; action := None;
     button := Some ("button." ++ n) |}.

Definition with_action (n : string) : screen world :=
  {| name := n; identifier := "#" ++ n;
     action := Some (click drv (Locator ("i.close." ++ n)));
     button := None |}.

Definition with_both (n : string) : screen world :=
  {| name := n; identifier := "#" ++ n;
     action := Some (click drv (Locator ("input." ++ n)));
     button := Some ("button." ++ n) |}.

(** A reply that takes no time. *)
Definition at_once (r : reply) : reply * Q := (r, 0%Q).

Definition run (catalog : list (screen world)) (fuel : nat)
    (replies : list (reply * Q)) : outcome (option exit_path) * machine world :=
  post_wizard_loop drv catalog fuel (start replies).

(** **** Scenarios *)

Definition two_screens : list (screen world) := [with_button "A"; with_button "B"].

(** A is visible but its button never shows; B is visible and closes. *)
Definition button_never_shows : list (reply * Q) :=
  [ at_once Yes;                 (* A: is_visible *)
    (TimesOut, 10%Q);            (* A: button.first.wait_for(visible) *)
    at_once Yes;                 (* B: is_visible *)
    at_once Yes; at_once Yes;    (* B: button visible, click *)
    at_once Yes; at_once Yes ].  (* B: hidden, network idle *)

(** A is clicked and closes but the page does not settle in 30 s; B is
    visible in the same scan. *)
Definition slow_to_settle : list (reply * Q) :=
  [ at_once Yes;                 (* A: is_visible *)
    at_once Yes; at_once Yes;    (* A: button visible, click *)
    at_once Yes;                 (* A: hidden *)
    (TimesOut, 30%Q);            (* A: wait_for_load_state *)
    at_once Yes;                 (* B: is_visible *)
    at_once Yes; at_once Yes;    (* B: button visible, click *)
    at_once Yes; at_once Yes ].  (* B: hidden, network idle *)

(** A is dismissed in the first iteration, nothing shows in the second,
    A shows again in the third. *)
Definition flicker : list (reply * Q) :=
  [ at_once Yes; at_once Yes; at_once Yes; at_once Yes; at_once Yes;
    at_once No; at_once No;      (* second scan: A, B *)
    at_once Yes; at_once No ].   (* third scan: A again, B *)

(** The query for A resolves to two elements. *)
Definition strict_mode_violation : list (reply * Q) :=
  [ at_once (Fails "Error" "strict mode violation") ].

(** A, with an action and a button, then B; A shows once more while B
    is on. *)
Definition action_and_button : list (screen world) :=
  [with_both "A"; with_button "B"].

Definition shows_again : list (reply * Q) :=
  [ at_once Yes;                 (* A: is_visible *)
    at_once Yes;                 (* A: action *)
    at_once Yes; at_once Yes;    (* A: button visible, click *)
    at_once Yes; at_once Yes;    (* A: hidden, network idle *)
    at_once Yes;                 (* second scan, A: is_visible *)
    at_once Yes;                 (* B: is_visible *)
    at_once Yes; at_once Yes;    (* B: button visible, click *)
    at_once Yes; at_once Yes ].  (* B: hidden, network idle *)

(** The screens of [wizard_screens] show one after the other, in catalog
    order.  In the scan for screen [k] the [k] screens before it are
    gone; its handling makes three driver calls before the wait for
    its identifier to hide when it is the first screen (action and
    button) and two otherwise; the screen takes [hide] seconds to go
    and the page [settle] seconds to settle. *)
Definition dismissal (hide settle : Q) (k : nat) : list (reply * Q) :=
  (repeat (at_once No) k ++ [at_once Yes]
     ++ repeat (at_once Yes) (if (k =? 0)%nat then 3 else 2)
     ++ [(Yes, hide); (Yes, settle)])%list.

Definition dismissals (hide settle : Q) (n : nat) : list (reply * Q) :=
  flat_map (dismissal hide settle) (seq 0 n).

(** The query for A times out; B is visible and closes. *)
Definition query_times_out : list (reply * Q) :=
  [ at_once TimesOut;            (* A: is_visible *)
    at_once Yes;                 (* B: is_visible *)
    at_once Yes; at_once Yes;    (* B: button visible, click *)
    at_once Yes; at_once Yes ].  (* B: hidden, network idle *)

(** The machine after [fuel] iterations of a scenario. *)
Definition after (catalog : list (screen world)) (fuel : nat)
    (replies : list (reply * Q)) : machine world :=
  (run catalog fuel replies).2.

End Sim.

End PostWizard.


(** ** The version scraper, [scripts/scrape-dsm-version.py] *)

Module Scraper.

(** Characters are code points below 256, so the only decimal digits
    are [0] to [9]. *)
Definition dq : string := String "034"%char EmptyString.
Definition nl : string := String "010"%char EmptyString.

(** *** Values of [json.loads] and the Python operations on them *)

(** A [float] matters to the script only through being zero or not. *)
#[local] Unset Elimination Schemes.
Inductive json :=
| JNull
| JBool (b : bool)
| JInt (n : Z)
| JFloat (q : Q)
| JStr (s : string)
| JList (l : list json)
| JDict (d : list (string * json)).
#[local] Set Elimination Schemes.

Definition KeyError : exn := Exception "KeyError" EmptyString.
Definition TypeError : exn := Exception "TypeError" EmptyString.
Definition IndexError : exn := Exception "IndexError" EmptyString.

(** [bool(x)] *)
Definition truthy (x : json) : bool :=
  match x with
  | JNull => false
  | JBool b => b
  | JInt n => negb (n =? 0)%Z
  | JFloat q => negb (Qeq_bool q 0)
  | JStr s => negb (String.eqb s EmptyString)
  | JList l => match l with [] => false | _ => true end
  | JDict d => match d with [] => false | _ => true end
  end.

Fixpoint dict_get (d : list (string * json)) (k : string) : option json :=
  match d with
  | [] => None
  | (k', v) :: rest => if String.eqb k' k then Some v else dict_get rest k
  end.

(** [seq[i]] with Python's negative indices. *)
Definition index {A} (l : list A) (i : Z) : outcome A :=
  let n := Z.of_nat (length l) in
  let j := (if i <? 0 then i + n else i)%Z in
  if ((0 <=? j) && (j <? n))%Z then
    match nth_error l (Z.to_nat j) with
    | Some x => Returns x
    | None => Raises IndexError
    end
  else Raises IndexError.

Definition chars (s : string) : list json :=
  (λ c, JStr (String c EmptyString)) <$> list_ascii_of_string s.

(** [c[k]] *)
Definition getitem (c k : json) : outcome json :=
  match c with
  | JDict d =>
      match k with
      | JStr s => match dict_get d s with
                  | Some v => Returns v
                  | None => Raises KeyError
                  end
      | JList _ | JDict _ => Raises TypeError
      | _ => Raises KeyError
      end
  | JList l =>
      match k with
      | JInt i => index l i
      | JBool b => index l (if b then 1 else 0)%Z
      | _ => Raises TypeError
      end
  | JStr s =>
      match k with
      | JInt i => index (chars s) i
      | JBool b => index (chars s) (if b then 1 else 0)%Z
      | _ => Raises TypeError
      end
  | _ => Raises TypeError
  end.

(** [for x in c] *)
Definition iterate (c : json) : outcome (list json) :=
  match c with
  | JList l => Returns l
  | JDict d => Returns ((λ kv, JStr kv.1) <$> d)
  | JStr s => Returns (chars s)
  | _ => Raises TypeError
  end.

(** [x != s] for a string literal [s] *)
Definition differs (x : json) (s : string) : bool :=
  match x with
  | JStr t => negb (String.eqb t s)
  | _ => true
  end.

(** *** The pattern [(\d+\.\d+\.\d+)-(\d+)] *)

Inductive item :=
| Digits           (* \d+, greedy *)
| Lit (c : ascii)
| Open (group : nat)
| Close (group : nat).

Definition version_pattern : list item :=
  [ Open 1; Digits; Lit "."; Digits; Lit "."; Digits; Close 1;
    Lit "-"; Open 2; Digits; Close 2 ].

Definition is_digit (c : ascii) : bool :=
  let n := nat_of_ascii c in (48 <=? n)%nat && (n <=? 57)%nat.

(** Where each group opened and the spans of the closed ones. *)
Record captures := {
  opened : list (nat * nat);
  spans : list (nat * (nat * nat));
}.

Definition lookup_nat {A} (l : list (nat * A)) (k : nat) : option A :=
  snd <$> List.find (λ p, Nat.eqb p.1 k) l.

Definition open_group (g pos : nat) (c : captures) : captures :=
  {| opened := (g, pos) :: opened c; spans := spans c |}.

Definition close_group (g pos : nat) (c : captures) : captures :=
  match lookup_nat (opened c) g with
  | Some from => {| opened := opened c; spans := (g, (from, pos)) :: spans c |}
  | None => c
  end.

(** One or more digits, the longest run first, giving digits back one
    by one while the rest of the pattern [k] fails. *)
Fixpoint digits_then (k : string → nat → captures → option captures)
    (s : string) (pos : nat) (c : captures) : option captures :=
  match s with
  | EmptyString => None
  | String a s' =>
      if is_digit a then
        match digits_then k s' (S pos) c with
        | Some r => Some r
        | None => k s' (S pos) c
        end
      else None
  end.

(** [pattern.match] at one position. *)
Fixpoint match_here (p : list item) (s : string) (pos : nat) (c : captures)
  : option captures :=
  match p with
  | [] => Some c
  | Lit x :: p' =>
      match s with
      | String a s' => if Ascii.eqb a x then match_here p' s' (S pos) c else None
      | EmptyString => None
      end
  | Open g :: p' => match_here p' s pos (open_group g pos c)
  | Close g :: p' => match_here p' s pos (close_group g pos c)
  | Digits :: p' => digits_then (match_here p') s pos c
  end.

(** The leftmost position where the pattern matches. *)
Fixpoint search_from (p : list item) (s : string) (pos : nat) : option captures :=
  match match_here p s pos {| opened := []; spans := [] |} with
  | Some c => Some c
  | None =>
      match s with
      | String _ s' => search_from p s' (S pos)
      | EmptyString => None
      end
  end.

(** [re.search(p, s)], as the text of each group. *)
Definition re_search (p : list item) (s : string) : option (nat → string) :=
  match search_from p s 0 with
  | Some c =>
      Some (λ g, match lookup_nat (spans c) g with
                 | Some (from, to) => substring from (to - from) s
                 | None => EmptyString
                 end)
  | None => None
  end.

(** *** [scrape_dsm_version] *)

(** The dictionary [{"version": ..., "build": ...}]. *)
Record release := { version : string; build : string }.

(** [except (KeyError, TypeError)] *)
Definition key_or_type_error (e : exn) : bool :=
  match e with
  | Exception cls _ => String.eqb cls "KeyError" || String.eqb cls "TypeError"
  | _ => false
  end.

(** [except KeyError] *)
Definition key_error (e : exn) : bool :=
  match e with
  | Exception cls _ => String.eqb cls "KeyError"
  | _ => false
  end.

Definition and_then {A B} (x : outcome A) (k : A → outcome B) : outcome B :=
  match x with
  | Returns a => k a
  | Raises e => Raises e
  end.

(** Lines 38-42: the first [ver["value"]] that is not ["all_versions"],
    [None] when there is none. *)
Fixpoint latest_series_of (ver_list : list json) : outcome json :=
  match ver_list with
  | [] => Returns JNull
  | ver :: rest =>
      and_then (getitem ver (JStr "value")) (λ value,
        if differs value "all_versions" then Returns value
        else latest_series_of rest)
  end.

(** Lines 37-79, after the two lookups of lines 31-32. *)
Definition pick_version (ver_list versions_dict : json) : outcome (option release) :=
  and_then (iterate ver_list) (λ vers,
  and_then (latest_series_of vers) (λ latest_series,
    if negb (truthy latest_series) then Returns None
    else
      match getitem versions_dict latest_series with
      | Raises e => if key_error e then Returns None else Raises e
      | Returns versions =>
          if negb (truthy versions) then Returns None
          else
            and_then (getitem versions (JInt 0)) (λ latest,
            and_then (getitem latest (JStr "version")) (λ latest_version_str,
              match latest_version_str with
              | JStr s =>
                  match re_search version_pattern s with
                  | None => Returns None
                  | Some group =>
                      Returns (Some {| version := group 1%nat; build := group 2%nat |})
                  end
              | _ => Raises TypeError
              end))
      end)).

(** Lines 15-79.  [fetched] is what lines 23-24 produce: the decoded
    payload, or the exception of the request or of [json.loads].
    Messages on standard error are not part of the model. *)
Definition scrape_dsm_version (fetched : outcome json) : outcome (option release) :=
  match fetched with
  | Raises (BaseException cls msg) => Raises (BaseException cls msg)
  | Raises _ => Returns None
  | Returns data =>
      let lookups :=
        and_then (getitem data (JStr "info")) (λ info,
        and_then (getitem info (JStr "verList")) (λ ver_list,
        and_then (getitem data (JStr "info")) (λ info',
        and_then (getitem info' (JStr "versions")) (λ versions,
        and_then (getitem versions (JStr "DSM")) (λ versions_dict,
          Returns (ver_list, versions_dict)))))) in
      match lookups with
      | Raises e => if key_or_type_error e then Returns None else Raises e
      | Returns (ver_list, versions_dict) => pick_version ver_list versions_dict
      end
  end.

(** *** [json.dumps(output, indent=2)] for a dictionary of strings *)

Definition hex_digit (n : nat) : ascii :=
  ascii_of_nat (if (n <? 10)%nat then 48 + n else 87 + n).

(** One character of a string literal, with [ensure_ascii]. *)
Definition escape_char (c : ascii) : string :=
  let n := nat_of_ascii c in
  if (n =? 34)%nat then "\" ++ dq
  else if (n =? 92)%nat then "\\"
  else if (n =? 10)%nat then "\n"
  else if (n =? 13)%nat then "\r"
  else if (n =? 9)%nat then "\t"
  else if (n =? 8)%nat then "\b"
  else if (n =? 12)%nat then "\f"
  else if ((32 <=? n) && (n <=? 126))%nat then String c EmptyString
  else "\u00" ++ String (hex_digit (n / 16)) (String (hex_digit (n mod 16)) EmptyString).

Fixpoint escape (s : string) : string :=
  match s with
  | EmptyString => EmptyString
  | String c s' => escape_char c ++ escape s'
  end.

Definition quote (s : string) : string := dq ++ escape s ++ dq.

Definition dumps_indent2 (d : list (string * string)) : string :=
  match d with
  | [] => "{}"
  | _ => "{" ++ nl
           ++ join ("," ++ nl) ((λ kv, "  " ++ quote kv.1 ++ ": " ++ quote kv.2) <$> d)
           ++ nl ++ "}"
  end.

(** [json.dumps(output)], the one-line form with [", "] and [": "]. *)
Definition dumps (d : list (string * string)) : string :=
  "{" ++ join ", " ((λ kv, quote kv.1 ++ ": " ++ quote kv.2) <$> d) ++ "}".

(** *** Files *)

(** The files with their contents, the files [open] refuses to write, and
    the file each path names: two spellings of one file ([dsm-version.sh]
    and [./dsm-version.sh], an absolute path, a link) have the same
    [file_of]. *)
Record filesystem := {
  files : gmap string string;
  refused : gset string;
  file_of : string → string;
}.

Definition OSError : exn := Exception "PermissionError" EmptyString.

(** [with open(path, "w") as f: f.write(content)] *)
Definition write_file (path content : string) (fs : filesystem)
  : outcome unit * filesystem :=
  let file := file_of fs path in
  if decide (file ∈ refused fs) then (Raises OSError, fs)
  else (Returns tt,
        {| files := <[file := content]> (files fs); refused := refused fs;
           file_of := file_of fs |}).

(** [with open(path, "a") as f: f.write(content)] *)
Definition append_file (path content : string) (fs : filesystem)
  : outcome unit * filesystem :=
  let file := file_of fs path in
  if decide (file ∈ refused fs) then (Raises OSError, fs)
  else (Returns tt,
        {| files := <[file := default EmptyString (files fs !! file) ++ content]> (files fs);
           refused := refused fs; file_of := file_of fs |}).

(** Lines 82-92. *)
Definition version_file_content (version build : string) : string :=
  "#!/usr/bin/env bash" ++ nl
    ++ "# DSM version configuration" ++ nl
    ++ "# These variables are sourced by build-image.sh and GitHub Actions" ++ nl
    ++ "export DSM_VERSION=" ++ dq ++ version ++ dq ++ nl
    ++ "export DSM_BUILD=" ++ dq ++ build ++ dq ++ nl.

Definition update_version_file (version build : string) (fs : filesystem)
  : outcome unit * filesystem :=
  write_file "dsm-version.sh" (version_file_content version build) fs.

(** *** [main] *)

(** The two flags of the command line. *)
Record args := { update_file : bool; json_flag : bool }.

(** How the process ends: [sys.exit(code)], the end of [main] (status 0),
    or an exception nobody caught. *)
Inductive status := Exited (code : Z) | Crashed (e : exn).

Record run := {
  exit_status : status;
  stdout : string;
  disk : filesystem;
}.

(** Lines 135-141: the dictionary that is printed. *)
Definition output (r : release) : list (string * string) :=
  [ ("version", version r); ("build", build r);
    ("full_version", version r ++ "-" ++ build r) ].

(** Lines 95-141.  [github_output] is [os.getenv("GITHUB_OUTPUT")]. *)
Definition main (a : args) (github_output : option string)
    (fetched : outcome json) (fs : filesystem) : run :=
  match scrape_dsm_version fetched with
  | Raises e => {| exit_status := Crashed e; stdout := EmptyString; disk := fs |}
  | Returns None => {| exit_status := Exited 1; stdout := EmptyString; disk := fs |}
  | Returns (Some result) =>
      let version := version result in
      let build := build result in
      let '(r1, fs1) :=
        if update_file a then update_version_file version build fs
        else (Returns tt, fs) in
      match r1 with
      | Raises e => {| exit_status := Crashed e; stdout := EmptyString; disk := fs1 |}
      | Returns _ =>
          let '(r2, fs2) :=
            match github_output with
            | Some path =>
                if negb (String.eqb path EmptyString) then
                  append_file path
                    ("version=" ++ version ++ nl ++ "build=" ++ build ++ nl) fs1
                else (Returns tt, fs1)
            | None => (Returns tt, fs1)
            end in
          match r2 with
          | Raises e => {| exit_status := Crashed e; stdout := EmptyString; disk := fs2 |}
          | Returns _ =>
              if json_flag a || negb (update_file a) then
                {| exit_status := Exited 0;
                   stdout := dumps_indent2 (output result) ++ nl;
                   disk := fs2 |}
              else {| exit_status := Exited 0; stdout := EmptyString; disk := fs2 |}
          end
      end
  end.

(** *** Reading a printed text back *)

Inductive token := TLBrace | TRBrace | TColon | TComma | TString (s : string).

Definition is_space (c : ascii) : bool :=
  let n := nat_of_ascii c in
  (n =? 32)%nat || (n =? 10)%nat || (n =? 13)%nat || (n =? 9)%nat.

(** JSON tokens of a text whose string literals have no escapes;
    [lit] holds the literal being read. *)
Fixpoint lex (s : string) (lit : option string) : option (list token) :=
  match s with
  | EmptyString => match lit with None => Some [] | Some _ => None end
  | String c rest =>
      match lit with
      | Some acc =>
          if Ascii.eqb c "034" then cons (TString acc) <$> lex rest None
          else if Ascii.eqb c "\" then None
          else lex rest (Some (acc ++ String c EmptyString))
      | None =>
          if is_space c then lex rest None
          else if Ascii.eqb c "{" then cons TLBrace <$> lex rest None
          else if Ascii.eqb c "}" then cons TRBrace <$> lex rest None
          else if Ascii.eqb c ":" then cons TColon <$> lex rest None
          else if Ascii.eqb c "," then cons TComma <$> lex rest None
          else if Ascii.eqb c "034" then lex rest (Some EmptyString)
          else None
      end
  end.

Fixpoint members (ts : list token) : option (list (string * string)) :=
  match ts with
  | TString k :: TColon :: TString v :: rest =>
      match rest with
      | [TRBrace] => Some [(k, v)]
      | TComma :: more => cons (k, v) <$> members more
      | _ => None
      end
  | _ => None
  end.

(** The JSON object a text denotes, when it is an object whose members
    are plain strings. *)
Definition read_object (text : string) : option (list (string * string)) :=
  match lex text None with
  | Some [TLBrace; TRBrace] => Some []
  | Some (TLBrace :: ts) => members ts
  | _ => None
  end.

(** *** A payload to run the scraper on *)

(** The shape of the vendor's answer, cut down to what the script reads. *)
Definition sample_payload : json :=
  JDict
    [ ("info",
       JDict
         [ ("verList",
            JList [ JDict [("name", JStr "All versions"); ("value", JStr "all_versions")];
                    JDict [("name", JStr "7.2 Series"); ("value", JStr "7.2")];
                    JDict [("name", JStr "7.1 Series"); ("value", JStr "7.1")] ]);
           ("versions",
            JDict
              [ ("DSM",
                 JDict
                   [ ("7.2",
                      JList [ JDict [("version", JStr "7.2.2-72806 Update 4")];
                              JDict [("version", JStr "7.2.2-72806 Update 3")] ]);
                     ("7.1",
                      JList [ JDict [("version", JStr "7.1.1-42962 Update 8")] ]) ]) ]) ]) ].

Definition empty_disk : filesystem :=
  {| files := ∅; refused := ∅; file_of := λ path, path |}.

End Scraper.


(** ** Properties of the post-wizard loop *)

Module PostWizardProofs.

Import PostWizard.
#[local] Open Scope list_scope.

Section Logic.

Context {World : Type}.
Implicit Types m : machine World.

Lemma moves_bind {A B} (P R Q : machine World → Prop)
    (c : M World A) (k : A → M World B) :
  moves P c R → (∀ a, moves R (k a) Q) → (∀ m, R m → Q m) →
  moves P (bind c k) Q.
Proof.
  intros Hc Hk HRQ m Hm. specialize (Hc m Hm). unfold bind.
  destruct (c m) as [[a|e] m']; simpl in *.
  - by apply Hk.
  - by apply HRQ.
Qed.

Lemma moves_try {A} (P R Q : machine World → Prop)
    (c : M World A) (h : exn → M World A) :
  moves P c R → (∀ e, moves R (h e) Q) → (∀ m, R m → Q m) →
  moves P (try_except c h) Q.
Proof.
  intros Hc Hh HRQ m Hm. specialize (Hc m Hm). unfold try_except.
  destruct (c m) as [[a|e] m']; simpl in *.
  - by apply HRQ.
  - by apply Hh.
Qed.

Lemma moves_weaken {A} (P P' Q Q' : machine World → Prop) (c : M World A) :
  moves P' c Q' → (∀ m, P m → P' m) → (∀ m, Q' m → Q m) → moves P c Q.
Proof. intros Hc HP HQ m Hm. apply HQ, Hc, HP, Hm. Qed.

Lemma moves_ret {A} (P : machine World → Prop) (a : A) : moves P (ret a) P.
Proof. by intros m Hm. Qed.

Lemma moves_raise {A} (P : machine World → Prop) (e : exn) :
  moves P (raise (A := A) e) P.
Proof. by intros m Hm. Qed.

Lemma triple_bind {A B} (P : machine World → Prop)
    (R : outcome A → machine World → Prop) (Q : outcome B → machine World → Prop)
    (c : M World A) (k : A → M World B) :
  triple P c R → (∀ a, triple (R (Returns a)) (k a) Q) →
  (∀ e m, R (Raises e) m → Q (Raises e) m) →
  triple P (bind c k) Q.
Proof.
  intros Hc Hk HRQ m Hm. specialize (Hc m Hm). unfold bind.
  destruct (c m) as [[a|e] m']; simpl in *.
  - by apply Hk.
  - by apply HRQ.
Qed.

(** A prefix that only has to keep an assertion, before a step whose
    outcome matters. *)
Lemma triple_after {A B} (P R : machine World → Prop)
    (Q : outcome B → machine World → Prop)
    (c : M World A) (k : A → M World B) :
  moves P c R → (∀ a, triple R (k a) Q) → (∀ e m, R m → Q (Raises e) m) →
  triple P (bind c k) Q.
Proof.
  intros Hc Hk HRQ m Hm. specialize (Hc m Hm). unfold bind.
  destruct (c m) as [[a|e] m']; simpl in *.
  - by apply Hk.
  - by apply HRQ.
Qed.

Lemma bind_get_seen {B} (k : gset string → M World B) m :
  bind get_seen k m = k (screens_seen m) m.
Proof. reflexivity. Qed.

Lemma bind_assoc {A B C} (c : M World A) (f : A → M World B)
    (g : B → M World C) m :
  bind (bind c f) g m = bind c (λ a, bind (f a) g) m.
Proof. unfold bind. by destruct (c m) as [[a|e] m']. Qed.

Lemma bind_ret {A B} (a : A) (k : A → M World B) m : bind (ret a) k m = k a m.
Proof. reflexivity. Qed.

Lemma bind_emit {B} (e : event) (k : unit → M World B) m :
  bind (emit e) k m = k tt (emit e m).2.
Proof. reflexivity. Qed.

Lemma bind_print {B} (line : string) (k : unit → M World B) m :
  bind (print line) k m = k tt (print line m).2.
Proof. reflexivity. Qed.

Lemma bind_seen_add {B} (n : string) (k : unit → M World B) m :
  bind (seen_add n) k m = k tt (seen_add n m).2.
Proof. reflexivity. Qed.

Lemma bind_found_visible {B} (n : string) (k : unit → M World B) m :
  bind (found_visible n) k m = k tt (found_visible n m).2.
Proof. reflexivity. Qed.

Lemma bind_page {A B} (f : World → outcome A * World) (k : A → M World B) m :
  bind (page f) k m =
    match f (world m) with
    | (Returns a, w) => k a (set_world w m)
    | (Raises e, w) => (Raises e, set_world w m)
    end.
Proof. unfold bind, page. by destruct (f (world m)) as [[a|e] w]. Qed.

End Logic.

(** Runs sequenced code up to the next driver call. *)
Ltac mrun :=
  repeat (first [ rewrite bind_assoc | rewrite bind_ret | rewrite bind_emit
                | rewrite bind_print | rewrite bind_seen_add
                | rewrite bind_found_visible | rewrite bind_get_seen
                | rewrite bind_page ];
          cbv beta;
          cbn [world screens_seen screen_found consecutive_no_match stdout events
               fst snd emit print seen_add found_visible set_world]).

(** Unfolds a primitive of the machine down to the record it builds. *)
Ltac prim :=
  let m := fresh "m" in
  let Hm := fresh "Hm" in
  intros m Hm;
  cbv [page sleep now print emit get_seen seen_add set_screen_found found_visible
       set_consecutive_no_match get_consecutive_no_match get_screen_found
       ret raise set_world];
  repeat match goal with
    | |- context [ let '(_, _) := ?f ?w in _ ] => destruct (f w) as [? ?]
    end;
  cbn [fst snd world screens_seen screen_found consecutive_no_match stdout events].

Section Events.

Lemma wf_events_action l n : wf_events l → EvAction n ∈ l → EvSeenAdd n ∈ l.
Proof.
  induction 1 as [|k l Hl IH Hk|k l Hl IH Hk Hk'|k l Hl IH Hk Hk'|e l Hl IH He];
    intros Hin.
  - by apply elem_of_nil in Hin.
  - apply elem_of_cons in Hin as [Heq|Hin]; [done|]. right. auto.
  - apply elem_of_cons in Hin as [Heq|Hin]; right; [congruence|auto].
  - apply elem_of_cons in Hin as [Heq|Hin]; [done|]. right. auto.
  - apply elem_of_cons in Hin as [Heq|Hin]; [by subst|]. right. auto.
Qed.

Lemma wf_events_click l n : wf_events l → EvClick n ∈ l → EvSeenAdd n ∈ l.
Proof.
  induction 1 as [|k l Hl IH Hk|k l Hl IH Hk Hk'|k l Hl IH Hk Hk'|e l Hl IH He];
    intros Hin.
  - by apply elem_of_nil in Hin.
  - apply elem_of_cons in Hin as [Heq|Hin]; [done|]. right. auto.
  - apply elem_of_cons in Hin as [Heq|Hin]; [done|]. right. auto.
  - apply elem_of_cons in Hin as [Heq|Hin]; right; [congruence|auto].
  - apply elem_of_cons in Hin as [Heq|Hin]; [by subst|]. right. auto.
Qed.

Lemma wf_events_suffix l1 l2 : wf_events (l1 ++ l2) → wf_events l2.
Proof.
  induction l1 as [|e l1 IH]; [done|]. simpl. intros H.
  inversion H; subst; auto.
Qed.

(** In a well-formed list an event that is not neutral occurs once. *)
Lemma wf_events_once l1 l2 e :
  ¬ neutral e → wf_events (l1 ++ e :: l2) → (e ∉ l1) ∧ (e ∉ l2).
Proof.
  intros He. induction l1 as [|x l1 IH]; simpl; intros H.
  - split; [apply not_elem_of_nil|].
    inversion H; subst; try done.
  - assert (wf_events (l1 ++ e :: l2)) as Hrest by (inversion H; auto).
    destruct (IH Hrest) as [H1 H2]. split; [|done].
    apply not_elem_of_cons. split; [|done].
    intros ->. inversion H; subst; try done;
      match goal with Hn : _ ∉ _ |- _ => apply Hn end;
      apply elem_of_app; right; left.
Qed.

Lemma elem_of_rev {A} (l : list A) (x : A) : x ∈ rev l ↔ x ∈ l.
Proof. rewrite !list_elem_of_In. symmetry. apply in_rev. Qed.

(** The same facts on the trace, oldest first. *)
Lemma rev_split {A} (l pre post : list A) (x : A) :
  rev l = pre ++ x :: post → l = rev post ++ x :: rev pre.
Proof.
  intros H. rewrite <- (rev_involutive l), H, rev_app_distr. simpl.
  by rewrite <- app_assoc.
Qed.

End Events.

(** *** One iteration, case by case *)

Section Iteration.

Context {World : Type} (drv : driver World) (catalog : list (screen World)).
Abbreviation names := (all_screen_names catalog).
Implicit Types m : machine World.

(** Lines 236-253 when the budget is exceeded. *)
Lemma iteration_timeout (start_time : Q) m :
  (inject_Z 300 < time_time drv (world m) - start_time)%Q →
  iteration drv catalog start_time m =
    (Raises (Exception "TimeoutError" (timeout_message (names ∖ screens_seen m))),
     printed
       [ ("[dsm] post-wizard: Screens NOT seen: "
            ++ join ", " (sorted (names ∖ screens_seen m)))%string;
         ("[dsm] post-wizard: Screens seen: "
            ++ join ", " (sorted (screens_seen m)))%string;
         ("[dsm] post-wizard: FATAL - Timeout after "
            ++ pretty timeout_seconds ++ "s")%string ] m).
Proof.
  intros Hlate. unfold iteration, bind at 1, now. cbn beta iota.
  destruct (Qlt_le_dec _ _) as [_|Hle].
  - reflexivity.
  - exfalso. eapply Qlt_not_le; [exact Hlate|exact Hle].
Qed.

(** Lines 236-261 when the budget is not exceeded and every name was
    seen. *)
Lemma iteration_covered (start_time : Q) m :
  ¬ (inject_Z 300 < time_time drv (world m) - start_time)%Q →
  screens_seen m = names →
  iteration drv catalog start_time m =
    (Returns (Exit FullCoverage),
     printed [ ("[dsm] post-wizard: All " ++ pretty (size names)
                  ++ " expected screens handled")%string ] m).
Proof.
  intros Hin Hall. unfold iteration, bind at 1, now. cbn beta iota.
  destruct (Qlt_le_dec _ _) as [Hlt|_]; [done|].
  unfold bind at 1, get_seen. cbn beta iota.
  destruct (decide _) as [_|Hne]; [reflexivity|done].
Qed.

(** Lines 263-335 when the budget is not exceeded and some name is
    still unseen. *)
Lemma iteration_scan (start_time : Q) m :
  ¬ (inject_Z 300 < time_time drv (world m) - start_time)%Q →
  screens_seen m ≠ names →
  iteration drv catalog start_time m =
    match scan drv catalog catalog (before_scan drv m) with
    | (Returns _, m2) => after_scan m2
    | (Raises e, m2) => (Raises e, m2)
    end.
Proof.
  intros Hin Hne. unfold iteration, bind at 1, now. cbn beta iota.
  destruct (Qlt_le_dec _ _) as [Hlt|_]; [done|].
  unfold bind at 1, get_seen. cbn beta iota.
  destruct (decide _) as [Heq|_]; [done|].
  unfold bind at 1, sleep. cbn beta iota.
  unfold bind at 1, set_screen_found. cbn beta iota.
  unfold set_world. cbn [world screens_seen screen_found consecutive_no_match
                           stdout events].
  fold (before_scan drv m). unfold bind at 1.
  destruct (scan drv catalog catalog (before_scan drv m)) as [[[]|e] m2];
    [|done].
  unfold after_scan, bind, get_screen_found, get_consecutive_no_match,
    set_consecutive_no_match, print, ret, printed.
  destruct (screen_found m2) eqn:Hfound; cbn [negb]; cbv beta iota.
  - by rewrite Hfound.
  - destruct (30 <=? consecutive_no_match m2 + 1)%nat; cbn; by rewrite Hfound.
Qed.

End Iteration.

(** Walks through sequenced code for an assertion that every step keeps,
    leaving the primitives to [solve_prim]. *)
Ltac walk solve_prim :=
  lazymatch goal with
  | |- moves ?P (bind _ _) ?P =>
      apply (moves_bind P P P); [walk solve_prim | intros ?; walk solve_prim | done]
  | |- moves ?P (try_except _ _) ?P =>
      apply (moves_try P P P); [walk solve_prim | intros ?; walk solve_prim | done]
  | |- moves _ (ret _) _ => apply moves_ret
  | |- moves _ (raise _) _ => apply moves_raise
  | |- moves _ (match ?x with _ => _ end) _ => destruct x; walk solve_prim
  | |- _ => prim; solve_prim
  end.

(** *** One scan of the catalog *)

Section Scans.

Context {World : Type} (drv : driver World) (catalog : list (screen World)).
Implicit Types m : machine World.

Lemma unsettled_refl m : unsettled_since m m.
Proof. by exists []. Qed.

Lemma unsettled_same m m' : events m' = events m → unsettled_since m m'.
Proof. intros H. by exists []. Qed.

Lemma unsettled_cons m0 m e (f : bool) (s : gset string) :
  ¬ settled e → unsettled_since m0 m →
  unsettled_since m0
    {| world := world m; screens_seen := s; screen_found := f;
       consecutive_no_match := consecutive_no_match m;
       stdout := stdout m; events := e :: events m |}.
Proof.
  intros He (new & Hnew & Hall). exists (e :: new). simpl. split.
  - by rewrite Hnew.
  - by constructor.
Qed.

Ltac keep_unsettled :=
  first [ assumption | apply unsettled_cons; [by intros []|assumption] ].

(** What a step that may settle a screen leaves behind. *)
Definition settles (m0 : machine World) (r : outcome flow) m : Prop :=
  match r with
  | Returns Break => settled_top m0 m
  | _ => unsettled_since m0 m
  end.

Lemma handle_screen_settles m0 (screen : screen World) :
  triple (unsettled_since m0) (handle_screen drv catalog screen) (settles m0).
Proof.
  unfold handle_screen.
  do 6 (apply (triple_after (unsettled_since m0) (unsettled_since m0));
        [walk keep_unsettled | intros ? | by intros]).
  do 3 (apply (triple_after (unsettled_since m0) (unsettled_since m0));
        [walk keep_unsettled | intros ? | by intros]).
  intros m (new & Hnew & Hall). unfold bind, emit, ret. simpl.
  exists (name screen), new. by rewrite Hnew.
Qed.

Lemma check_screen_settles m0 (screen : screen World) :
  triple (unsettled_since m0) (check_screen drv catalog screen) (settles m0).
Proof.
  unfold check_screen.
  do 2 (apply (triple_after (unsettled_since m0) (unsettled_since m0));
        [walk keep_unsettled | intros ? | by intros]).
  destruct a0; [|by intros m Hm].
  apply (triple_after (unsettled_since m0) (unsettled_since m0));
    [walk keep_unsettled | intros ? | by intros].
  intros m Hm. rewrite bind_get_seen.
  destruct (decide _); [exact Hm|]. by apply handle_screen_settles.
Qed.

Lemma scan_screen_settles m0 (screen : screen World) :
  triple (unsettled_since m0) (scan_screen drv catalog screen) (settles m0).
Proof.
  intros m Hm. pose proof (check_screen_settles m0 screen m Hm) as H.
  unfold scan_screen, try_except.
  destruct (check_screen drv catalog screen m) as [[[|]|e] m']; simpl in *;
    try done.
  destruct e as [msg|cls msg|cls msg]; simpl; done.
Qed.

Lemma scan_settles m0 (screens : list (screen World)) m :
  unsettled_since m0 m →
  let m' := (scan drv catalog screens m).2 in
  unsettled_since m0 m' ∨ settled_top m0 m'.
Proof.
  revert m. induction screens as [|screen rest IH]; intros m Hm; simpl.
  - by left.
  - pose proof (scan_screen_settles m0 screen m Hm) as H. unfold bind.
    destruct (scan_screen drv catalog screen m) as [[[|]|e] m']; simpl in *.
    + by apply IH.
    + by right.
    + by left.
Qed.

Lemma settled_last_of_unsettled m0 m : unsettled_since m0 m → settled_last_since m0 m.
Proof.
  intros (new & Hnew & Hall). exists new. split; [done|].
  intros pre post n Hrev. exfalso.
  rewrite Forall_forall in Hall. apply (Hall (EvSettled n)); [|done].
  rewrite <- elem_of_rev, Hrev. apply elem_of_app. right. left.
Qed.

Lemma settled_last_of_top m0 m : settled_top m0 m → settled_last_since m0 m.
Proof.
  intros (k & new & Hnew & Hall). exists (EvSettled k :: new). split; [done|].
  intros pre post n Hrev. simpl in Hrev.
  destruct post as [|x post _] using rev_ind.
  - apply app_inj_tail in Hrev as [<- _]. split; [done|].
    rewrite Forall_forall in *. intros e He. apply Hall. by apply elem_of_rev.
  - exfalso. rewrite app_comm_cons, app_assoc in Hrev.
    apply app_inj_tail in Hrev as [Hrev _].
    rewrite Forall_forall in Hall. apply (Hall (EvSettled n)); [|done].
    rewrite <- elem_of_rev, Hrev. apply elem_of_app. right. left.
Qed.

Lemma found_refl m :
  screen_found m = false → found_iff_visible m m.
Proof.
  intros Hf. exists []. repeat split; try done.
  - by rewrite Hf.
  - intros H. by apply Exists_nil in H.
Qed.

Lemma found_cons_other m0 m e (s : gset string) :
  ¬ is_visible_event e → found_iff_visible m0 m →
  found_iff_visible m0
    {| world := world m; screens_seen := s; screen_found := screen_found m;
       consecutive_no_match := consecutive_no_match m;
       stdout := stdout m; events := e :: events m |}.
Proof.
  intros He (new & Hnew & Hiff & Hcnm). exists (e :: new). simpl.
  split; [by rewrite Hnew|]. split; [|done].
  rewrite Exists_cons. tauto.
Qed.

Lemma found_cons_visible m0 m n :
  found_iff_visible m0 m →
  found_iff_visible m0
    {| world := world m; screens_seen := screens_seen m; screen_found := true;
       consecutive_no_match := consecutive_no_match m;
       stdout := stdout m; events := EvVisible n :: events m |}.
Proof.
  intros (new & Hnew & Hiff & Hcnm). exists (EvVisible n :: new). simpl.
  split; [by rewrite Hnew|]. split; [|done].
  split; [|done]. intros _. by left.
Qed.

Ltac keep_found :=
  first [ assumption
        | apply found_cons_visible; assumption
        | apply found_cons_other; [by intros []|assumption] ].

Lemma scan_screen_found m0 (screen : screen World) :
  moves (found_iff_visible m0) (scan_screen drv catalog screen)
    (found_iff_visible m0).
Proof.
  unfold scan_screen, check_screen, handle_screen. cbv zeta.
  walk keep_found.
Qed.

Lemma scan_found m0 (screens : list (screen World)) :
  moves (found_iff_visible m0) (scan drv catalog screens) (found_iff_visible m0).
Proof.
  induction screens as [|screen rest IH]; simpl; [apply moves_ret|].
  apply (moves_bind _ (found_iff_visible m0) _); [apply scan_screen_found| |done].
  intros [|]; [apply IH|apply moves_ret].
Qed.

Lemma idle_counter_law (start_time : Q) m :
  let r := iteration drv catalog start_time m in
  ∃ new, events r.2 = new ++ events m ∧
    match r.1 with
    | Returns Again =>
        (Exists is_visible_event new ∧ consecutive_no_match r.2 = 0%nat)
        ∨ (¬ Exists is_visible_event new
           ∧ consecutive_no_match r.2 = (consecutive_no_match m + 1)%nat
           ∧ (consecutive_no_match m + 1 < 30)%nat)
    | Returns (Exit IdleConvergence) =>
        ¬ Exists is_visible_event new
        ∧ consecutive_no_match r.2 = (consecutive_no_match m + 1)%nat
        ∧ (30 ≤ consecutive_no_match m + 1)%nat
    | Returns (Exit FullCoverage) =>
        new = [] ∧ consecutive_no_match r.2 = consecutive_no_match m
    | Raises _ => consecutive_no_match r.2 = consecutive_no_match m
    end.
Proof.
  cbn zeta.
  destruct (Qlt_le_dec (inject_Z 300)
              (time_time drv (world m) - start_time)) as [Hlt|Hle].
  { rewrite (iteration_timeout drv catalog) by done. by exists []. }
  apply Qle_not_lt in Hle.
  destruct (decide (screens_seen m = all_screen_names catalog)) as [Heq|Hne].
  { rewrite (iteration_covered drv catalog) by done. by exists []. }
  rewrite (iteration_scan drv catalog) by done.
  assert (found_iff_visible m (before_scan drv m)) as H0.
  { exists []. repeat split; try done. intros H. by apply Exists_nil in H. }
  pose proof (scan_found m catalog (before_scan drv m) H0) as H.
  destruct (scan drv catalog catalog (before_scan drv m)) as [[[]|e] m2];
    simpl in H; destruct H as (new & Hnew & Hiff & Hcnm); exists new.
  - unfold after_scan. destruct (screen_found m2) eqn:Hf.
    + simpl. split; [done|]. left. split; [by apply Hiff|done].
    + assert (¬ Exists is_visible_event new) as Hno.
      { intros Hex. apply Hiff in Hex. congruence. }
      destruct (30 <=? consecutive_no_match m2 + 1)%nat eqn:Hle30; simpl.
      * apply Nat.leb_le in Hle30. rewrite <- Hcnm. by repeat split.
      * apply Nat.leb_gt in Hle30. rewrite <- Hcnm.
        split; [done|]. right. by repeat split.
  - simpl. by split.
Qed.

(** A scan during which nothing is visible only moves the page. *)
Lemma scan_idle (screens : list (screen World)) m (w' : World) :
  probe drv screens (world m) = Some w' →
  ∃ m', scan drv catalog screens m = (Returns tt, m')
    ∧ world m' = w' ∧ screens_seen m' = screens_seen m
    ∧ screen_found m' = screen_found m
    ∧ consecutive_no_match m' = consecutive_no_match m.
Proof.
  revert m. induction screens as [|screen rest IH]; intros m Hp; simpl in *.
  - exists m. by simplify_eq.
  - destruct (is_visible drv (Locator (identifier screen)) (world m))
      as [[[|]|e] w1] eqn:Hv; try done.
    unfold bind at 1, scan_screen, try_except, check_screen.
    unfold bind at 1, emit. cbn beta iota.
    unfold bind at 1, page. cbn [world]. rewrite Hv. cbn beta iota.
    unfold ret at 1. cbn beta iota.
    match goal with
    | |- ∃ m', scan _ _ _ ?m1 = _ ∧ _ => destruct (IH m1 Hp) as (m' & -> & H)
    end.
    exists m'. split; [done|]. exact H.
Qed.

Lemma names_nonempty : catalog ≠ [] → all_screen_names catalog ≠ ∅.
Proof.
  destruct catalog as [|screen rest]; [done|]. intros _ H.
  assert (name screen ∈ all_screen_names (screen :: rest)) as Hin.
  { unfold all_screen_names. simpl. set_solver. }
  rewrite H in Hin. by apply not_elem_of_empty in Hin.
Qed.

Lemma idle_run (start_time : Q) (n : nat) m :
  catalog ≠ [] → screens_seen m = ∅ → (0 < n)%nat →
  (consecutive_no_match m + n = 30)%nat →
  idle_for drv catalog n start_time (world m) →
  ∃ m', while_true drv catalog n start_time m = (Returns (Some IdleConvergence), m')
    ∧ screens_seen m' = ∅ ∧ consecutive_no_match m' = 30%nat.
Proof.
  intros Hcat. revert m. induction n as [|n IH]; intros m Hseen Hpos Hsum Hidle.
  - lia.
  - destruct Hidle as [Htime Hidle].
    destruct (probe drv catalog (asyncio_sleep drv 1 (world m))) as [w'|] eqn:Hp;
      [|done].
    destruct (scan_idle catalog (before_scan drv m) w' Hp)
      as (m2 & Hscan & Hw & Hs & Hf & Hc).
    simpl in Hs, Hf, Hc.
    assert (screens_seen m ≠ all_screen_names catalog) as Hne.
    { rewrite Hseen. intros H. by apply names_nonempty. }
    change (while_true drv catalog (S n) start_time m)
      with (bind (iteration drv catalog start_time)
              (λ s, match s with
                    | Again => while_true drv catalog n start_time
                    | Exit p => ret (Some p)
                    end) m).
    unfold bind. rewrite (iteration_scan drv catalog) by done.
    rewrite Hscan. unfold after_scan. rewrite Hf, Hc.
    destruct (30 <=? consecutive_no_match m + 1)%nat eqn:Hle.
    + apply Nat.leb_le in Hle. eexists. split; [reflexivity|]. simpl.
      split; [congruence|lia].
    + apply Nat.leb_gt in Hle. apply IH; simpl; try lia; try congruence.
Qed.

Lemma while_true_more (start_time : Q) (k j : nat) m p m' :
  while_true drv catalog k start_time m = (Returns (Some p), m') →
  while_true drv catalog (k + j) start_time m = (Returns (Some p), m').
Proof.
  revert m. induction k as [|k IH]; intros m; simpl; [done|].
  unfold bind.
  destruct (iteration drv catalog start_time m) as [[[|q]|e] m1]; try done.
  apply IH.
Qed.

(** Lines 268-277 up to the test of [screens_seen]. *)
Lemma check_screen_visible (screen : screen World) m (w1 : World) :
  is_visible drv (Locator (identifier screen)) (world m) = (Returns true, w1) →
  name screen ∉ screens_seen m →
  check_screen drv catalog screen m =
    handle_screen drv catalog screen
      {| world := w1; screens_seen := screens_seen m; screen_found := true;
         consecutive_no_match := consecutive_no_match m; stdout := stdout m;
         events := EvVisible (name screen) :: EvQuery (name screen) :: events m |}.
Proof.
  intros Hv Hn. unfold check_screen.
  unfold bind at 1, emit. cbn beta iota.
  unfold bind at 1, page. cbn [world]. rewrite Hv. cbn beta iota.
  unfold bind at 1, found_visible. cbn beta iota.
  rewrite bind_get_seen. cbn [screens_seen set_world].
  by destruct (decide _).
Qed.

Lemma check_screen_raises (screen : screen World) m (e : exn) (w1 : World) :
  is_visible drv (Locator (identifier screen)) (world m) = (Raises e, w1) →
  check_screen drv catalog screen m =
    (Raises e,
     {| world := w1; screens_seen := screens_seen m;
        screen_found := screen_found m;
        consecutive_no_match := consecutive_no_match m; stdout := stdout m;
        events := EvQuery (name screen) :: events m |}).
Proof.
  intros Hv. unfold check_screen.
  unfold bind at 1, emit. cbn beta iota.
  unfold bind at 1, page. cbn [world]. by rewrite Hv.
Qed.

(** Lines 315-323: what the two handlers do with an exception of the
    [try] body. *)
Lemma scan_screen_raises (screen : screen World) m (e : exn) m' :
  check_screen drv catalog screen m = (Raises e, m') →
  scan_screen drv catalog screen m =
    match e with
    | PlaywrightTimeoutError _ => (Returns Next, m')
    | Exception _ _ =>
        (Raises e,
         printed [ ("[dsm] post-wizard: FATAL ERROR handling screen "
                      ++ name screen ++ ": " ++ class_name e ++ ": "
                      ++ message e)%string ] m')
    | BaseException _ _ => (Raises e, m')
    end.
Proof.
  intros H. unfold scan_screen, try_except. rewrite H.
  by destruct e.
Qed.

(** Lines 279-297 when the wait for the dismiss button times out. *)
Lemma handle_screen_button_timeout (screen : screen World) m
    (b msg : string) (w2 w3 : World) :
  run_action screen (world m) = (Returns tt, w2) →
  button screen = Some b →
  wait_for drv (First (Locator b)) Visible 10000 w2
    = (Raises (PlaywrightTimeoutError msg), w3) →
  ∃ m', handle_screen drv catalog screen m = (Raises (PlaywrightTimeoutError msg), m')
    ∧ world m' = w3
    ∧ screens_seen m' = {[name screen]} ∪ screens_seen m
    ∧ screen_found m' = screen_found m
    ∧ consecutive_no_match m' = consecutive_no_match m
    ∧ events m' =
        (if action screen is Some _ then [EvAction (name screen)] else [])
          ++ EvSeenAdd (name screen) :: events m.
Proof.
  intros Hact Hb Hwait. unfold handle_screen, run_action in *. rewrite Hb.
  destruct (action screen) as [act|].
  - mrun. rewrite Hact. mrun. rewrite Hwait.
    eexists. split; [reflexivity|]. by simpl.
  - simplify_eq. mrun. rewrite Hwait.
    eexists. split; [reflexivity|]. by simpl.
Qed.

Lemma scan_cons_next (entry : screen World) (rest : list (screen World)) m m' :
  scan_screen drv catalog entry m = (Returns Next, m') →
  scan drv catalog (entry :: rest) m = scan drv catalog rest m'.
Proof. intros H. simpl. unfold bind. by rewrite H. Qed.

Lemma scan_cons_raises (entry : screen World) (rest : list (screen World))
    m e m' :
  scan_screen drv catalog entry m = (Raises e, m') →
  scan drv catalog (entry :: rest) m = (Raises e, m').
Proof. intros H. simpl. unfold bind. by rewrite H. Qed.

Lemma while_true_raises (start_time : Q) (fuel : nat) m e m' :
  iteration drv catalog start_time m = (Raises e, m') →
  while_true drv catalog (S fuel) start_time m = (Raises e, m').
Proof. intros H. simpl. unfold bind. by rewrite H. Qed.

(** C2, as amended: when the wait for the dismiss button of a matched
    screen times out, the timeout is swallowed.  The screen stays in the
    Seen-Set, its button is not clicked, the loop does not fail, and the
    scan goes on with the next catalog entry. *)
Theorem button_timeout_is_swallowed
    (entry : screen World) (rest : list (screen World)) m
    (b msg : string) (w1 w2 w3 : World) :
  is_visible drv (Locator (identifier entry)) (world m) = (Returns true, w1) →
  name entry ∉ screens_seen m →
  run_action entry w1 = (Returns tt, w2) →
  button entry = Some b →
  wait_for drv (First (Locator b)) Visible 10000 w2
    = (Raises (PlaywrightTimeoutError msg), w3) →
  ∃ m', scan_screen drv catalog entry m = (Returns Next, m')
    ∧ scan drv catalog (entry :: rest) m = scan drv catalog rest m'
    ∧ world m' = w3
    ∧ screens_seen m' = {[name entry]} ∪ screens_seen m
    ∧ screen_found m' = true
    ∧ consecutive_no_match m' = consecutive_no_match m
    ∧ events m' =
        (if action entry is Some _ then [EvAction (name entry)] else [])
          ++ [ EvSeenAdd (name entry); EvVisible (name entry);
               EvQuery (name entry) ] ++ events m.
Proof.
  intros Hv Hn Hact Hb Hwait.
  pose proof (check_screen_visible entry m w1 Hv Hn) as Hcheck.
  match type of Hcheck with
  | _ = handle_screen _ _ _ ?m1 =>
      destruct (handle_screen_button_timeout entry m1 b msg w2 w3 Hact Hb Hwait)
        as (m' & Hh & Hw & Hs & Hf & Hc & He)
  end.
  rewrite Hh in Hcheck. apply scan_screen_raises in Hcheck.
  exists m'. split; [done|]. split; [by apply scan_cons_next|].
  by simpl in *.
Qed.

(** C6, as amended: what happens to an exception raised while one
    catalog entry is processed depends on its class, not on where it
    came from.  The driver's timeout error is swallowed, from the
    detection predicate (the screen then counts as not visible) as from
    the handling of a matched screen, and the scan goes on with the next
    entry.  Any other exception, also one of the detection predicate,
    leaves the scan, the iteration and the loop at once. *)
Theorem exceptions_are_sorted_by_class
    (entry : screen World) (rest : list (screen World)) m :
  (∀ msg w1,
     is_visible drv (Locator (identifier entry)) (world m)
       = (Raises (PlaywrightTimeoutError msg), w1) →
     ∃ m', scan drv catalog (entry :: rest) m = scan drv catalog rest m'
       ∧ world m' = w1 ∧ screens_seen m' = screens_seen m
       ∧ screen_found m' = screen_found m
       ∧ events m' = EvQuery (name entry) :: events m)
  ∧ (∀ cls msg w1,
       is_visible drv (Locator (identifier entry)) (world m)
         = (Raises (Exception cls msg), w1) →
       ∃ m', scan drv catalog (entry :: rest) m = (Raises (Exception cls msg), m')
         ∧ world m' = w1 ∧ events m' = EvQuery (name entry) :: events m)
  ∧ (∀ msg m',
       check_screen drv catalog entry m = (Raises (PlaywrightTimeoutError msg), m') →
       scan drv catalog (entry :: rest) m = scan drv catalog rest m')
  ∧ (∀ e m',
       check_screen drv catalog entry m = (Raises e, m') →
       (∀ msg, e ≠ PlaywrightTimeoutError msg) →
       ∃ m'', scan drv catalog (entry :: rest) m = (Raises e, m'')
         ∧ world m'' = world m' ∧ screens_seen m'' = screens_seen m'
         ∧ events m'' = events m')
  ∧ (∀ start_time fuel m0 e m',
       ¬ (inject_Z 300 < time_time drv (world m0) - start_time)%Q →
       screens_seen m0 ≠ all_screen_names catalog →
       scan drv catalog catalog (before_scan drv m0) = (Raises e, m') →
       while_true drv catalog (S fuel) start_time m0 = (Raises e, m')).
Proof.
  split; [|split; [|split; [|split]]].
  - intros msg w1 Hv. apply check_screen_raises in Hv.
    apply scan_screen_raises in Hv. eexists.
    split; [by apply scan_cons_next|]. done.
  - intros cls msg w1 Hv. apply check_screen_raises in Hv.
    apply scan_screen_raises in Hv. eexists.
    split; [by apply scan_cons_raises|]. done.
  - intros msg m' Hc. apply scan_screen_raises in Hc. by apply scan_cons_next.
  - intros e m' Hc Hne. apply scan_screen_raises in Hc.
    destruct e as [msg|cls msg|cls msg]; [by destruct (Hne msg)| |].
    + eexists. split; [by apply scan_cons_raises|]. done.
    + eexists. split; [by apply scan_cons_raises|]. done.
  - intros start_time fuel m0 e m' Ht Hne Hscan.
    apply while_true_raises. rewrite (iteration_scan drv catalog) by done.
    by rewrite Hscan.
Qed.

(** Lines 268-277 for a screen that is not visible. *)
Lemma check_screen_hidden (entry : screen World) m (w1 : World) :
  is_visible drv (Locator (identifier entry)) (world m) = (Returns false, w1) →
  check_screen drv catalog entry m =
    (Returns Next,
     {| world := w1; screens_seen := screens_seen m; screen_found := screen_found m;
        consecutive_no_match := consecutive_no_match m; stdout := stdout m;
        events := EvQuery (name entry) :: events m |}).
Proof.
  intros Hv. unfold check_screen.
  unfold bind at 1, emit. cbn beta iota.
  unfold bind at 1, page. cbn [world]. by rewrite Hv.
Qed.

(** Lines 268-277 for a visible screen whose name is in the Seen-Set
    already: [screen_found] is set, nothing is added or acted on. *)
Lemma check_screen_seen (entry : screen World) m (w1 : World) :
  is_visible drv (Locator (identifier entry)) (world m) = (Returns true, w1) →
  name entry ∈ screens_seen m →
  check_screen drv catalog entry m =
    (Returns Next,
     {| world := w1; screens_seen := screens_seen m; screen_found := true;
        consecutive_no_match := consecutive_no_match m; stdout := stdout m;
        events := EvVisible (name entry) :: EvQuery (name entry) :: events m |}).
Proof.
  intros Hv Hn. unfold check_screen.
  unfold bind at 1, emit. cbn beta iota.
  unfold bind at 1, page. cbn [world]. rewrite Hv. cbn beta iota.
  unfold bind at 1, found_visible. cbn beta iota.
  rewrite bind_get_seen. cbn [screens_seen set_world].
  by destruct (decide _).
Qed.

Lemma scan_screen_returns (entry : screen World) m (f : flow) m' :
  check_screen drv catalog entry m = (Returns f, m') →
  scan_screen drv catalog entry m = (Returns f, m').
Proof. intros H. unfold scan_screen, try_except. by rewrite H. Qed.

(** The handlers of lines 315-323 leave the flag and the counter as the
    body of [try] left them. *)
Lemma scan_screen_flags (entry : screen World) m :
  screen_found (scan_screen drv catalog entry m).2
    = screen_found (check_screen drv catalog entry m).2
  ∧ consecutive_no_match (scan_screen drv catalog entry m).2
    = consecutive_no_match (check_screen drv catalog entry m).2.
Proof.
  unfold scan_screen, try_except.
  destruct (check_screen drv catalog entry m) as [[f|[msg|cls msg|cls msg]] m'];
    by simpl.
Qed.

(** A stretch of the catalog in which no query answers [True] changes
    the page and nothing else. *)
Lemma scan_skipped (screens rest : list (screen World)) m (w' : World) :
  skipped drv screens (world m) = Some w' →
  ∃ m', scan drv catalog (screens ++ rest) m = scan drv catalog rest m'
    ∧ world m' = w' ∧ screens_seen m' = screens_seen m
    ∧ screen_found m' = screen_found m
    ∧ consecutive_no_match m' = consecutive_no_match m
    ∧ ∃ new, events m' = new ++ events m ∧ Forall neutral new.
Proof.
  revert m. induction screens as [|entry screens IH]; intros m Hs.
  - exists m. simpl in *. simplify_eq. repeat split; try done. by exists [].
  - cbn [skipped] in Hs.
    destruct (is_visible drv (Locator (identifier entry)) (world m))
      as [[[|]|[msg|cls msg|cls msg]] w1] eqn:Hv; try done.
    + pose proof (check_screen_hidden entry m w1 Hv) as Hc.
      apply scan_screen_returns in Hc.
      match type of Hc with
      | _ = (_, ?m1) =>
          destruct (IH m1 Hs) as (m' & Hscan & Hw & Hseen & Hf & Hcnm & new & Hnew & Hall)
      end.
      exists m'. cbn [app]. rewrite (scan_cons_next _ _ _ _ Hc).
      repeat split; try done. exists (new ++ [EvQuery (name entry)]).
      split; [by rewrite Hnew, <- app_assoc|].
      apply Forall_app. split; [done|]. by repeat constructor.
    + pose proof (check_screen_raises entry m _ w1 Hv) as Hc.
      apply scan_screen_raises in Hc.
      match type of Hc with
      | _ = (_, ?m1) =>
          destruct (IH m1 Hs) as (m' & Hscan & Hw & Hseen & Hf & Hcnm & new & Hnew & Hall)
      end.
      exists m'. cbn [app]. rewrite (scan_cons_next _ _ _ _ Hc).
      repeat split; try done. exists (new ++ [EvQuery (name entry)]).
      split; [by rewrite Hnew, <- app_assoc|].
      apply Forall_app. split; [done|]. by repeat constructor.
Qed.

(** Once set, [screen_found] stays set to the end of the scan, and no
    scan touches the counter. *)
Definition found_with_count (c : nat) m : Prop :=
  screen_found m = true ∧ consecutive_no_match m = c.

Ltac keep_flag :=
  first [ assumption
        | match goal with H : found_with_count _ _ |- _ => destruct H; by split end ].

Lemma handle_screen_keeps_flag (c : nat) (entry : screen World) :
  moves (found_with_count c) (handle_screen drv catalog entry) (found_with_count c).
Proof. unfold handle_screen. cbv zeta. walk keep_flag. Qed.

Lemma scan_keeps_flag (c : nat) (screens : list (screen World)) :
  moves (found_with_count c) (scan drv catalog screens) (found_with_count c).
Proof.
  induction screens as [|entry rest IH]; simpl; [apply moves_ret|].
  apply (moves_bind _ (found_with_count c) _); [| |done].
  - unfold scan_screen, check_screen, handle_screen. cbv zeta. walk keep_flag.
  - intros [|]; [apply IH|apply moves_ret].
Qed.

(** A query that answers [True] sets [screen_found], whether or not the
    name of the screen is in the Seen-Set. *)
Lemma visible_sets_flag (entry : screen World) (rest : list (screen World)) m
    (w1 : World) :
  is_visible drv (Locator (identifier entry)) (world m) = (Returns true, w1) →
  found_with_count (consecutive_no_match m) (scan drv catalog (entry :: rest) m).2.
Proof.
  intros Hv.
  assert (found_with_count (consecutive_no_match m)
            (scan_screen drv catalog entry m).2) as Hflag.
  { destruct (scan_screen_flags entry m) as [Hf Hc]. unfold found_with_count.
    rewrite Hf, Hc.
    destruct (decide (name entry ∈ screens_seen m)) as [Hin|Hout].
    - by rewrite (check_screen_seen entry m w1 Hv Hin).
    - rewrite (check_screen_visible entry m w1 Hv Hout).
      by apply (handle_screen_keeps_flag (consecutive_no_match m) entry). }
  simpl. unfold bind.
  destruct (scan_screen drv catalog entry m) as [[[|]|e] m1]; simpl in *;
    [|done..].
  by apply scan_keeps_flag.
Qed.

Lemma iteration_all_skipped (start_time : Q) m (w' : World) :
  ¬ (inject_Z 300 < time_time drv (world m) - start_time)%Q →
  screens_seen m ≠ all_screen_names catalog →
  skipped drv catalog (asyncio_sleep drv 1 (world m)) = Some w' →
  ∃ m', iteration drv catalog start_time m =
          ((if (30 <=? consecutive_no_match m + 1)%nat
            then Returns (Exit IdleConvergence) else Returns Again), m')
    ∧ consecutive_no_match m' = (consecutive_no_match m + 1)%nat
    ∧ screens_seen m' = screens_seen m ∧ world m' = w'.
Proof.
  intros Ht Hne Hs. rewrite (iteration_scan drv catalog) by done.
  destruct (scan_skipped catalog [] (before_scan drv m) w' Hs)
    as (m2 & Hscan & Hw & Hseen & Hf & Hc & _).
  rewrite app_nil_r in Hscan. rewrite Hscan. cbn [scan ret].
  unfold after_scan. simpl in Hseen, Hf, Hc. rewrite Hf, Hc.
  destruct (30 <=? consecutive_no_match m + 1)%nat; eexists; by split.
Qed.

Lemma iteration_visible (start_time : Q) m
    (before after_ : list (screen World)) (entry : screen World) (w2 w3 : World) :
  ¬ (inject_Z 300 < time_time drv (world m) - start_time)%Q →
  screens_seen m ≠ all_screen_names catalog →
  catalog = before ++ entry :: after_ →
  skipped drv before (asyncio_sleep drv 1 (world m)) = Some w2 →
  is_visible drv (Locator (identifier entry)) w2 = (Returns true, w3) →
  let r := iteration drv catalog start_time m in
  match r.1 with
  | Returns Again => consecutive_no_match r.2 = 0%nat
  | Returns (Exit _) => False
  | Raises _ => consecutive_no_match r.2 = consecutive_no_match m
  end.
Proof.
  intros Ht Hne Hcat Hs Hv. cbn zeta.
  rewrite (iteration_scan drv catalog) by done.
  replace (scan drv catalog catalog (before_scan drv m))
    with (scan drv catalog (before ++ entry :: after_) (before_scan drv m))
    by (by rewrite <- Hcat).
  destruct (scan_skipped before (entry :: after_) (before_scan drv m) w2 Hs)
    as (m1 & -> & Hw & _ & _ & Hc & _).
  rewrite <- Hw in Hv.
  pose proof (visible_sets_flag entry after_ m1 w3 Hv) as [Hfound Hcount].
  destruct (scan drv catalog (entry :: after_) m1) as [[[]|e] m2]; simpl in *.
  - unfold after_scan. by rewrite Hfound.
  - congruence.
Qed.

Lemma iteration_seen_visible (start_time : Q) m
    (before after_ : list (screen World)) (entry : screen World)
    (w2 w3 w4 : World) :
  ¬ (inject_Z 300 < time_time drv (world m) - start_time)%Q →
  screens_seen m ≠ all_screen_names catalog →
  catalog = before ++ entry :: after_ →
  skipped drv before (asyncio_sleep drv 1 (world m)) = Some w2 →
  is_visible drv (Locator (identifier entry)) w2 = (Returns true, w3) →
  name entry ∈ screens_seen m →
  skipped drv after_ w3 = Some w4 →
  ∃ m', iteration drv catalog start_time m = (Returns Again, m')
    ∧ consecutive_no_match m' = 0%nat
    ∧ screens_seen m' = screens_seen m ∧ world m' = w4
    ∧ ∃ new, events m' = new ++ events m ∧ Forall neutral new.
Proof.
  intros Ht Hne Hcat Hs Hv Hin Hs'.
  rewrite (iteration_scan drv catalog) by done.
  replace (scan drv catalog catalog (before_scan drv m))
    with (scan drv catalog (before ++ entry :: after_) (before_scan drv m))
    by (by rewrite <- Hcat).
  destruct (scan_skipped before (entry :: after_) (before_scan drv m) w2 Hs)
    as (m1 & -> & Hw1 & Hseen1 & _ & Hc1 & new1 & Hnew1 & Hall1).
  change (screens_seen (before_scan drv m)) with (screens_seen m) in Hseen1.
  change (events (before_scan drv m)) with (events m) in Hnew1.
  rewrite <- Hw1 in Hv. rewrite <- Hseen1 in Hin.
  pose proof (check_screen_seen entry m1 w3 Hv Hin) as Hcheck.
  apply scan_screen_returns in Hcheck.
  rewrite (scan_cons_next _ _ _ _ Hcheck).
  match type of Hcheck with
  | _ = (_, ?m2) =>
      destruct (scan_skipped after_ [] m2 w4 Hs')
        as (m3 & Hscan & Hw3 & Hseen3 & Hf3 & Hc3 & new3 & Hnew3 & Hall3)
  end.
  rewrite app_nil_r in Hscan. rewrite Hscan. cbn [scan ret].
  unfold after_scan. simpl in Hseen3, Hf3, Hc3, Hnew3. rewrite Hf3.
  eexists. split; [reflexivity|]. cbn [consecutive_no_match screens_seen world events].
  split; [done|]. split; [congruence|]. split; [done|].
  exists (new3 ++ [EvVisible (name entry); EvQuery (name entry)] ++ new1).
  split.
  - rewrite Hnew3, Hnew1. simpl. by rewrite <- !app_assoc.
  - apply Forall_app. split; [done|]. apply Forall_app. split; [|done].
    by repeat constructor.
Qed.

(** C3, as amended: an iteration that gets as far as the scan resets the
    idle counter to 0 when some queried screen is visible, whether or not
    its name is already in the Seen-Set, and adds one to it when none is;
    the loop leaves through the idle path exactly when the counter so
    reaches 30.  Parts 3 to 5 say it from the answers of [is_visible]: no
    query answers [True], the counter goes up by one; the first query that
    answers [True] does so for a screen seen or unseen, the iteration
    does not count; the only visible screen is in the Seen-Set already,
    the counter is reset to 0 and nothing is added or acted on.  Part 1
    says the same on the events, part 2 is the run of a page that shows no
    screen: with a catalog that is not empty and a clock that stays within
    the budget for thirty iterations, the loop ends through the idle path
    with an empty Seen-Set. *)
Theorem idle_counter_counts_scans_without_visible_screen :
  (∀ (start_time : Q) m,
     let r := iteration drv catalog start_time m in
     ∃ new, events r.2 = new ++ events m ∧
       match r.1 with
       | Returns Again =>
           (Exists is_visible_event new ∧ consecutive_no_match r.2 = 0%nat)
           ∨ (¬ Exists is_visible_event new
              ∧ consecutive_no_match r.2 = (consecutive_no_match m + 1)%nat
              ∧ (consecutive_no_match m + 1 < 30)%nat)
       | Returns (Exit IdleConvergence) =>
           ¬ Exists is_visible_event new
           ∧ consecutive_no_match r.2 = (consecutive_no_match m + 1)%nat
           ∧ (30 ≤ consecutive_no_match m + 1)%nat
       | Returns (Exit FullCoverage) =>
           new = [] ∧ consecutive_no_match r.2 = consecutive_no_match m
       | Raises _ => consecutive_no_match r.2 = consecutive_no_match m
       end)
  ∧ (∀ (w : World) (fuel : nat),
       catalog ≠ [] → (30 ≤ fuel)%nat →
       idle_for drv catalog 30 (time_time drv w) w →
       ∃ m', post_wizard_loop drv catalog fuel w
               = (Returns (Some IdleConvergence), m')
         ∧ screens_seen m' = ∅ ∧ consecutive_no_match m' = 30%nat)
  ∧ (∀ (start_time : Q) m (w' : World),
       ¬ (inject_Z 300 < time_time drv (world m) - start_time)%Q →
       screens_seen m ≠ all_screen_names catalog →
       skipped drv catalog (asyncio_sleep drv 1 (world m)) = Some w' →
       ∃ m', iteration drv catalog start_time m =
               ((if (30 <=? consecutive_no_match m + 1)%nat
                 then Returns (Exit IdleConvergence) else Returns Again), m')
         ∧ consecutive_no_match m' = (consecutive_no_match m + 1)%nat
         ∧ screens_seen m' = screens_seen m ∧ world m' = w')
  ∧ (∀ (start_time : Q) m (before after_ : list (screen World))
       (entry : screen World) (w2 w3 : World),
       ¬ (inject_Z 300 < time_time drv (world m) - start_time)%Q →
       screens_seen m ≠ all_screen_names catalog →
       catalog = before ++ entry :: after_ →
       skipped drv before (asyncio_sleep drv 1 (world m)) = Some w2 →
       is_visible drv (Locator (identifier entry)) w2 = (Returns true, w3) →
       let r := iteration drv catalog start_time m in
       match r.1 with
       | Returns Again => consecutive_no_match r.2 = 0%nat
       | Returns (Exit _) => False
       | Raises _ => consecutive_no_match r.2 = consecutive_no_match m
       end)
  ∧ (∀ (start_time : Q) m (before after_ : list (screen World))
       (entry : screen World) (w2 w3 w4 : World),
       ¬ (inject_Z 300 < time_time drv (world m) - start_time)%Q →
       screens_seen m ≠ all_screen_names catalog →
       catalog = before ++ entry :: after_ →
       skipped drv before (asyncio_sleep drv 1 (world m)) = Some w2 →
       is_visible drv (Locator (identifier entry)) w2 = (Returns true, w3) →
       name entry ∈ screens_seen m →
       skipped drv after_ w3 = Some w4 →
       ∃ m', iteration drv catalog start_time m = (Returns Again, m')
         ∧ consecutive_no_match m' = 0%nat
         ∧ screens_seen m' = screens_seen m ∧ world m' = w4
         ∧ ∃ new, events m' = new ++ events m ∧ Forall neutral new).
Proof.
  split; [apply idle_counter_law|].
  split; [|split; [apply iteration_all_skipped|
                   split; [apply iteration_visible|apply iteration_seen_visible]]].
  intros w fuel Hcat Hfuel Hidle.
  destruct (idle_run (time_time drv w) 30 (initial w)) as (m' & Hrun & H);
    [done|done|lia|done|done|].
  exists m'. split; [|done]. unfold post_wizard_loop.
  replace fuel with (30 + (fuel - 30))%nat by lia.
  by apply while_true_more.
Qed.

(** C9, as amended: in one iteration at most one screen is handled to
    the end (action run, button clicked, predicate confirmed hidden,
    page settled), and once one is, the scan breaks: nothing is
    queried, marked or acted on afterwards in that iteration.  Nothing
    is said here of a screen whose handling a timeout cut short. *)
Theorem one_completed_dismissal_per_iteration (start_time : Q) m :
  settled_last_since m (iteration drv catalog start_time m).2.
Proof.
  destruct (Qlt_le_dec (inject_Z 300)
              (time_time drv (world m) - start_time)) as [Hlt|Hle].
  { rewrite (iteration_timeout drv catalog) by done.
    by apply settled_last_of_unsettled, unsettled_same. }
  apply Qle_not_lt in Hle.
  destruct (decide (screens_seen m = all_screen_names catalog)) as [Heq|Hne].
  { rewrite (iteration_covered drv catalog) by done.
    by apply settled_last_of_unsettled, unsettled_same. }
  rewrite (iteration_scan drv catalog) by done.
  pose proof (scan_settles m catalog (before_scan drv m) (unsettled_refl m)) as H.
  cbn zeta in H.
  destruct (scan drv catalog catalog (before_scan drv m)) as [[[]|e] m2];
    simpl in H.
  - unfold after_scan.
    destruct (screen_found m2); [|destruct (_ <=? _)%nat];
      (destruct H as [H|H];
       [by apply settled_last_of_unsettled|by apply settled_last_of_top]).
  - destruct H as [H|H];
      [by apply settled_last_of_unsettled|by apply settled_last_of_top].
Qed.


End Scans.

(** *** The Seen-Set invariant *)

Section Safety.

Context {World : Type} (drv : driver World) (catalog : list (screen World)).
Variable base : gset string.
Abbreviation all := (all_screen_names catalog).
Abbreviation inv := (seen_inv all base).
Implicit Types m : machine World.

Lemma acting_weaken n a c a' c' m :
  acting all base n a c m → (a' = true → a = true) → (c' = true → c = true) →
  acting all base n a' c' m.
Proof.
  intros (Hi & Hn & Ha & Hc) Haa Hcc. split; [done|]. split; [done|].
  split; intros Ht; [apply Ha, Haa, Ht | apply Hc, Hcc, Ht].
Qed.

(** Steps that touch neither the Seen-Set nor the events, or add a
    neutral event. *)
Ltac keep :=
  match goal with
  | |- moves ?P (bind _ _) ?Q =>
      apply (moves_bind P P Q); [ prim; assumption | intros ? | ]
  end.

Lemma inv_neutral e m (f : bool) :
  neutral e → inv m →
  inv {| world := world m; screens_seen := screens_seen m; screen_found := f;
         consecutive_no_match := consecutive_no_match m;
         stdout := stdout m; events := e :: events m |}.
Proof.
  intros He (Hb & Ha & Hwf & Hiff). repeat split; simpl; auto.
  - by apply wf_neutral.
  - intros Hin. apply Hiff.
    apply elem_of_cons in Hin as [Heq|]; [by subst e|auto].
  - intros Hin. right. by apply Hiff.
Qed.

Lemma acting_neutral n a c e m :
  neutral e → acting all base n a c m →
  acting all base n a c
    {| world := world m; screens_seen := screens_seen m;
       screen_found := screen_found m;
       consecutive_no_match := consecutive_no_match m;
       stdout := stdout m; events := e :: events m |}.
Proof.
  intros He (Hi & Hn & Ha & Hc). split; [by apply inv_neutral|].
  repeat split; simpl; auto.
  - intros Ht Hin. apply elem_of_cons in Hin as [Heq|]; [by subst e|by apply Ha].
  - intros Ht Hin. apply elem_of_cons in Hin as [Heq|]; [by subst e|by apply Hc].
Qed.

Lemma handle_screen_inv (screen : screen World) :
  name screen ∈ all →
  moves (λ m, inv m ∧ name screen ∉ screens_seen m)
    (handle_screen drv catalog screen) inv.
Proof.
  intros Hall. unfold handle_screen. set (n := name screen) in *.
  apply (moves_bind _ (acting all base n true true) _).
  { prim. destruct Hm as [(Hb & Ha & Hwf & Hiff) Hn].
    assert (EvSeenAdd n ∉ events m) as Hfresh by (by rewrite Hiff).
    repeat split; simpl.
    - set_solver.
    - set_solver.
    - by apply wf_add.
    - intros Hin. apply elem_of_cons in Hin as [[= ->]|Hin]; [set_solver|].
      apply Hiff in Hin. set_solver.
    - intros Hin. apply elem_of_union in Hin as [Hin|Hin].
      + apply elem_of_singleton in Hin as ->. left.
      + right. by apply Hiff.
    - set_solver.
    - intros _ Hin. apply elem_of_cons in Hin as [|Hin]; [done|].
      by apply wf_events_action in Hin.
    - intros _ Hin. apply elem_of_cons in Hin as [|Hin]; [done|].
      by apply wf_events_click in Hin. }
  2: { intros m H. apply H. }
  intros _. keep; [|by intros m [H _]]. keep; [|by intros m [H _]].
  apply (moves_bind _ (acting all base n false true) _).
  { destruct (action screen) as [act|].
    - apply (moves_bind _ (acting all base n false true) _).
      + prim. destruct Hm as (Hi & Hn & Ha & Hc).
        destruct Hi as (Hb & Hsub & Hwf & Hiff).
        repeat split; simpl; auto.
        * apply wf_action; [done| by apply Hiff |by apply Ha].
        * intros Hin. apply Hiff.
          apply elem_of_cons in Hin as [|]; [done|auto].
        * intros Hin. right. by apply Hiff.
        * done.
        * intros Ht Hin. apply elem_of_cons in Hin as [|]; [done|by apply Hc].
      + intros _. keep; [|done]. prim. assumption.
      + done.
    - intros m H. eapply acting_weaken; [exact H|done..]. }
  2: { by intros m [H _]. }
  intros _.
  apply (moves_bind _ (acting all base n false false) _).
  { destruct (button screen) as [b|].
    - keep; [|intros m H; eapply acting_weaken; [exact H|done..]].
      apply (moves_bind _ (acting all base n false false) _).
      + prim. destruct Hm as (Hi & Hn & Ha & Hc).
        destruct Hi as (Hb & Hsub & Hwf & Hiff).
        repeat split; simpl; auto.
        * apply wf_click; [done| by apply Hiff |by apply Hc].
        * intros Hin. apply Hiff.
          apply elem_of_cons in Hin as [|]; [done|auto].
        * intros Hin. right. by apply Hiff.
        * done.
        * done.
      + intros _. keep; [|done]. prim. assumption.
      + done.
    - intros m H. eapply acting_weaken; [exact H|done..]. }
  2: { by intros m [H _]. }
  intros _. keep; [|by intros m [H _]].
  apply (moves_bind _ (acting all base n false false) _).
  { prim. by apply acting_neutral. }
  2: { by intros m [H _]. }
  intros _. keep; [|by intros m [H _]]. keep; [|by intros m [H _]].
  apply (moves_bind _ (acting all base n false false) _).
  { prim. by apply acting_neutral. }
  2: { by intros m [H _]. }
  intros _. intros m [H _]. exact H.
Qed.

Lemma check_screen_inv (screen : screen World) :
  name screen ∈ all → moves inv (check_screen drv catalog screen) inv.
Proof.
  intros Hall. unfold check_screen.
  apply (moves_bind _ inv _); [prim; by apply inv_neutral| |done].
  intros _. keep; [|done]. destruct a.
  - apply (moves_bind _ inv _); [prim; by apply inv_neutral| |done].
    intros _ m Hm. unfold bind at 1, get_seen. cbn beta iota.
    destruct (decide (name screen ∈ screens_seen m)) as [Hin|Hout]; [done|].
    by apply handle_screen_inv.
  - apply moves_ret.
Qed.

Lemma scan_screen_inv (screen : screen World) :
  name screen ∈ all → moves inv (scan_screen drv catalog screen) inv.
Proof.
  intros Hall. unfold scan_screen.
  apply (moves_try _ inv _); [by apply check_screen_inv| |done].
  intros [msg|cls msg|cls msg].
  - apply moves_ret.
  - keep; [|done]. apply moves_raise.
  - apply moves_raise.
Qed.

Lemma scan_inv (screens : list (screen World)) :
  (∀ screen, screen ∈ screens → name screen ∈ all) →
  moves inv (scan drv catalog screens) inv.
Proof.
  induction screens as [|screen rest IH]; intros Hall; simpl.
  - apply moves_ret.
  - apply (moves_bind _ inv _); [apply scan_screen_inv, Hall; left| |done].
    intros [|]; [|apply moves_ret].
    apply IH. intros s Hs. apply Hall. by right.
Qed.

Lemma catalog_names (screen : screen World) : screen ∈ catalog → name screen ∈ all.
Proof.
  intros Hin. unfold all_screen_names.
  apply elem_of_list_to_set, list_elem_of_fmap. eauto.
Qed.

Lemma iteration_inv (start_time : Q) :
  moves inv (iteration drv catalog start_time) inv.
Proof.
  unfold iteration. keep; [|done].
  destruct (Qlt_le_dec _ _).
  - keep; [|done]. do 3 (keep; [|done]). apply moves_raise.
  - keep; [|done]. destruct (decide _).
    + keep; [|done]. apply moves_ret.
    + keep; [|done]. keep; [|done].
      apply (moves_bind _ inv _); [apply scan_inv, catalog_names| |done].
      intros _. keep; [|done]. destruct (negb _).
      * keep; [|done]. keep; [|done]. destruct (_ <=? _)%nat.
        -- keep; [|done]. apply moves_ret.
        -- apply moves_ret.
      * keep; [|done]. apply moves_ret.
Qed.

Lemma while_true_inv (fuel : nat) (start_time : Q) :
  moves inv (while_true drv catalog fuel start_time) inv.
Proof.
  induction fuel as [|fuel IH]; simpl; [apply moves_ret|].
  apply (moves_bind _ inv _); [apply iteration_inv| |done].
  intros [|p]; [apply IH|apply moves_ret].
Qed.

End Safety.

Section Runs.

Context {World : Type} (drv : driver World) (catalog : list (screen World)).
Abbreviation names := (all_screen_names catalog).
Implicit Types m : machine World.

Lemma initial_inv (w : World) : seen_inv names ∅ (initial w).
Proof.
  repeat split; simpl; try set_solver. constructor.
Qed.

Lemma run_inv (fuel : nat) (w : World) :
  seen_inv names ∅ (post_wizard_loop drv catalog fuel w).2.
Proof. apply while_true_inv, initial_inv. Qed.

(** [while True] unrolled once more, seen from the end. *)
Lemma while_true_snoc (fuel : nat) (start_time : Q) m :
  while_true drv catalog (S fuel) start_time m =
  match while_true drv catalog fuel start_time m with
  | (Returns None, m') =>
      match iteration drv catalog start_time m' with
      | (Returns Again, m'') => (Returns None, m'')
      | (Returns (Exit p), m'') => (Returns (Some p), m'')
      | (Raises e, m'') => (Raises e, m'')
      end
  | other => other
  end.
Proof.
  revert m. induction fuel as [|fuel IH]; intros m.
  - simpl. unfold bind, ret.
    destruct (iteration drv catalog start_time m) as [[[|p]|e] m']; done.
  - change (while_true drv catalog (S (S fuel)) start_time m)
      with (bind (iteration drv catalog start_time)
              (λ s, match s with
                    | Again => while_true drv catalog (S fuel) start_time
                    | Exit p => ret (Some p)
                    end) m).
    change (while_true drv catalog (S fuel) start_time m)
      with (bind (iteration drv catalog start_time)
              (λ s, match s with
                    | Again => while_true drv catalog fuel start_time
                    | Exit p => ret (Some p)
                    end) m).
    unfold bind.
    destruct (iteration drv catalog start_time m) as [[[|p]|e] m1];
      [apply IH|done..].
Qed.

Lemma seen_inv_rebase (b : gset string) m :
  seen_inv names b m → seen_inv names (screens_seen m) m.
Proof. intros (_ & H). by split. Qed.

Lemma iteration_grows (start_time : Q) m :
  seen_inv names ∅ m →
  screens_seen m ⊆ screens_seen (iteration drv catalog start_time m).2.
Proof.
  intros Hm. apply seen_inv_rebase in Hm.
  by destruct (iteration_inv drv catalog _ start_time m Hm).
Qed.

Lemma sorted_perm (s : gset string) : sorted s ≡ₚ elements s.
Proof. apply merge_sort_Permutation. Qed.

Lemma elem_of_sorted (s : gset string) (n : string) : n ∈ sorted s ↔ n ∈ s.
Proof. by rewrite sorted_perm, elem_of_elements. Qed.

Lemma NoDup_sorted (s : gset string) : NoDup (sorted s).
Proof. rewrite sorted_perm. apply NoDup_elements. Qed.

Lemma length_sorted (s : gset string) : length (sorted s) = size s.
Proof. by rewrite sorted_perm. Qed.

Lemma run_step (k : nat) (w : World) :
  let r := post_wizard_loop drv catalog k w in
  let r' := post_wizard_loop drv catalog (S k) w in
  (r.1 = Returns None
     ∧ r'.2 = (iteration drv catalog (time_time drv w) r.2).2)
  ∨ (r.1 ≠ Returns None ∧ r' = r).
Proof.
  unfold post_wizard_loop. cbn zeta. rewrite while_true_snoc.
  destruct (while_true drv catalog k _ _) as [[[p|]|e] m]; simpl.
  - right. by split.
  - left. split; [done|].
    by destruct (iteration drv catalog _ m) as [[[|p]|e] m'].
  - right. by split.
Qed.

Lemma run_grows_step (k : nat) (w : World) :
  screens_seen (post_wizard_loop drv catalog k w).2
    ⊆ screens_seen (post_wizard_loop drv catalog (S k) w).2.
Proof.
  destruct (run_step k w) as [[_ ->]|[_ ->]]; [|done].
  apply iteration_grows, run_inv.
Qed.

Lemma run_grows (j k : nat) (w : World) :
  (j ≤ k)%nat →
  screens_seen (post_wizard_loop drv catalog j w).2
    ⊆ screens_seen (post_wizard_loop drv catalog k w).2.
Proof.
  induction 1 as [|k Hle IH]; [done|].
  etrans; [exact IH|apply run_grows_step].
Qed.

(** C1: in every run of the loop, whatever the page does, the action of
    a screen and the click on its dismiss button each happen after the
    screen's name was added to the Seen-Set, and each happens at most
    once, also when the screen shows again later. *)
Theorem mark_before_act_at_most_once
    (fuel : nat) (w : World) (n : string) (pre post : list event) :
  let m := (post_wizard_loop drv catalog fuel w).2 in
  (trace m = pre ++ EvAction n :: post →
     EvSeenAdd n ∈ pre ∧ (EvAction n ∉ pre) ∧ (EvAction n ∉ post))
  ∧ (trace m = pre ++ EvClick n :: post →
     EvSeenAdd n ∈ pre ∧ (EvClick n ∉ pre) ∧ (EvClick n ∉ post)).
Proof.
  intros m. destruct (run_inv fuel w) as (_ & _ & Hwf & _). fold m in Hwf.
  split; intros Htr; apply rev_split in Htr; rewrite Htr in Hwf.
  - destruct (wf_events_once _ _ (EvAction n) (λ H, H) Hwf) as [H1 H2].
    rewrite elem_of_rev in H1, H2. split; [|done].
    apply wf_events_suffix in Hwf. inversion Hwf; subst; [|done].
    by rewrite <- elem_of_rev.
  - destruct (wf_events_once _ _ (EvClick n) (λ H, H) Hwf) as [H1 H2].
    rewrite elem_of_rev in H1, H2. split; [|done].
    apply wf_events_suffix in Hwf. inversion Hwf; subst; [|done].
    by rewrite <- elem_of_rev.
Qed.

(** C8: the Seen-Set is empty at loop entry, stays within the names of
    the catalog, only grows from one iteration to the next, gets every
    name at most once, and once it holds every catalog name the loop
    does not go through another iteration. *)
Theorem seen_set_lifecycle (j k : nat) (w : World) :
  let run i := post_wizard_loop drv catalog i w in
  let seen i := screens_seen (run i).2 in
  seen 0 = ∅
  ∧ seen k ⊆ all_screen_names catalog
  ∧ ((j ≤ k)%nat → seen j ⊆ seen k)
  ∧ (∀ n, n ∈ seen k ↔ EvSeenAdd n ∈ trace (run k).2)
  ∧ (∀ n pre post, trace (run k).2 = pre ++ EvSeenAdd n :: post →
       (EvSeenAdd n ∉ pre) ∧ (EvSeenAdd n ∉ post))
  ∧ (seen k = all_screen_names catalog → (run (S k)).1 ≠ Returns None).
Proof.
  intros run seen. subst run seen. cbn beta.
  destruct (run_inv k w) as (_ & Hsub & Hwf & Hiff).
  split; [done|]. split; [exact Hsub|]. split; [apply run_grows|].
  split; [|split].
  - intros n. unfold trace. rewrite elem_of_rev. symmetry. apply Hiff.
  - intros n pre post Htr. apply rev_split in Htr. rewrite Htr in Hwf.
    destruct (wf_events_once _ _ (EvSeenAdd n) (λ H, H) Hwf) as [H1 H2].
    by rewrite elem_of_rev in H1, H2.
  - intros Hfull.
    unfold post_wizard_loop in *. rewrite while_true_snoc.
    destruct (while_true drv catalog k _ _) as [[[p|]|e] m]; simpl in *;
      [done| |done].
    destruct (Qlt_le_dec (inject_Z 300)
                (time_time drv (world m) - time_time drv w)) as [Hlt|Hle].
    + by rewrite iteration_timeout.
    + rewrite iteration_covered; [done| |done].
      by apply Qle_not_lt.
Qed.

(** C5: when the loop is still running and finds the 300 s budget
    exceeded, it prints the names it saw and the names it did not see
    and raises the timeout error with the missing names; the two
    lists have no repeats, have n and N-n entries, and together are
    exactly the catalog names. *)
Theorem timeout_reports_seen_and_unseen (k : nat) (w : World) (m : machine World) :
  post_wizard_loop drv catalog k w = (Returns None, m) →
  (inject_Z 300 < time_time drv (world m) - time_time drv w)%Q →
  let seen := sorted (screens_seen m) in
  let unseen := sorted (all_screen_names catalog ∖ screens_seen m) in
  post_wizard_loop drv catalog (S k) w =
    (Raises (Exception "TimeoutError"
               ("Post-wizard automation timed out after 300s. Missing screens: "
                  ++ join ", " unseen)%string),
     printed
       [ ("[dsm] post-wizard: Screens NOT seen: " ++ join ", " unseen)%string;
         ("[dsm] post-wizard: Screens seen: " ++ join ", " seen)%string;
         "[dsm] post-wizard: FATAL - Timeout after 300s"%string ] m)
  ∧ (∀ n, n ∈ seen ↔ n ∈ screens_seen m)
  ∧ (∀ n, n ∈ unseen ↔ n ∈ all_screen_names catalog ∧ n ∉ screens_seen m)
  ∧ NoDup (seen ++ unseen)
  ∧ seen ++ unseen ≡ₚ elements (all_screen_names catalog)
  ∧ length seen = size (screens_seen m)
  ∧ length unseen = size (all_screen_names catalog) - size (screens_seen m).
Proof.
  intros Hrun Hlate seen unseen.
  assert (screens_seen m ⊆ names) as Hsub.
  { pose proof (run_inv k w) as (_ & H & _). by rewrite Hrun in H. }
  split; [|split; [|split; [|split; [|split; [|split]]]]].
  - unfold post_wizard_loop in *. rewrite while_true_snoc, Hrun.
    by rewrite iteration_timeout.
  - intros n. apply elem_of_sorted.
  - intros n. unfold unseen. rewrite elem_of_sorted. set_solver.
  - apply NoDup_app. split; [apply NoDup_sorted|].
    split; [|apply NoDup_sorted].
    intros n. unfold seen, unseen. rewrite !elem_of_sorted. set_solver.
  - unfold seen, unseen. rewrite !sorted_perm.
    rewrite <- elements_disj_union by set_solver.
    by rewrite <- union_difference_L.
  - apply length_sorted.
  - unfold unseen. rewrite length_sorted. by apply size_difference.
Qed.

(** C4, as amended: the budget is checked first and then the coverage;
    a loop that is still running with every catalog name seen leaves
    through the full-coverage path at the next check when the budget
    is not exceeded, with no further sleep, query or idle counting,
    and fails with the timeout error when it is. *)
Theorem covered_exits_unless_timed_out (k : nat) (w : World) (m : machine World) :
  post_wizard_loop drv catalog k w = (Returns None, m) →
  screens_seen m = all_screen_names catalog →
  (¬ (inject_Z 300 < time_time drv (world m) - time_time drv w)%Q →
     post_wizard_loop drv catalog (S k) w =
       (Returns (Some FullCoverage),
        printed [ ("[dsm] post-wizard: All "
                     ++ pretty (size (all_screen_names catalog))
                     ++ " expected screens handled")%string ] m))
  ∧ ((inject_Z 300 < time_time drv (world m) - time_time drv w)%Q →
     (post_wizard_loop drv catalog (S k) w).1 =
       Raises (Exception "TimeoutError"
                 "Post-wizard automation timed out after 300s. Missing screens: ")).
Proof.
  intros Hrun Hfull. unfold post_wizard_loop in *.
  rewrite while_true_snoc, Hrun. split; intros Ht.
  - by rewrite iteration_covered.
  - rewrite iteration_timeout by done. simpl. do 2 f_equal.
    rewrite Hfull. replace (names ∖ names) with (∅ : gset string) by set_solver.
    by vm_compute.
Qed.

End Runs.

End PostWizardProofs.
(** ** The loop on concrete pages *)

Module PostWizardExamples.

Import PostWizard PostWizardProofs.
#[local] Open Scope list_scope.

(** C1, on a page where A shows again after it was dismissed: the action
    of A comes after its name was added and happens once. *)
Lemma mark_before_act_witness :
  EvSeenAdd "A" ∈ [EvQuery "A"; EvVisible "A"; EvSeenAdd "A"]
  ∧ (EvAction "A" ∉ [EvQuery "A"; EvVisible "A"; EvSeenAdd "A"])
  ∧ (EvAction "A" ∉
       [ EvClick "A"; EvHidden "A"; EvSettled "A"; EvQuery "A"; EvVisible "A";
         EvQuery "B"; EvVisible "B"; EvSeenAdd "B"; EvClick "B"; EvHidden "B";
         EvSettled "B" ]).
Proof.
  apply (proj1 (mark_before_act_at_most_once Sim.drv Sim.action_and_button 3
                  (Sim.start Sim.shows_again) "A" _ _)).
  vm_compute. reflexivity.
Defined.

(** C2 fails on the code: the wait for the button of A times out, and the
    loop does not fail.  B is marked and dismissed in the same scan and
    the loop ends through the full-coverage path; A was never clicked. *)
Lemma button_timeout_loop_goes_on :
  (Sim.run Sim.two_screens 2 Sim.button_never_shows).1 = Returns (Some FullCoverage)
  ∧ trace (Sim.after Sim.two_screens 1 Sim.button_never_shows) =
      [ EvQuery "A"; EvVisible "A"; EvSeenAdd "A";
        EvQuery "B"; EvVisible "B"; EvSeenAdd "B"; EvClick "B"; EvHidden "B";
        EvSettled "B" ].
Proof. by vm_compute. Qed.

Lemma button_timeout_is_swallowed_witness :
  ∃ m', scan_screen Sim.drv Sim.two_screens (Sim.with_button "A")
          (initial (Sim.start Sim.button_never_shows)) = (Returns Next, m')
    ∧ scan Sim.drv Sim.two_screens [Sim.with_button "A"; Sim.with_button "B"]
        (initial (Sim.start Sim.button_never_shows))
      = scan Sim.drv Sim.two_screens [Sim.with_button "B"] m'
    ∧ world m' = {| Sim.clock := 10; Sim.script := drop 2 Sim.button_never_shows |}
    ∧ screens_seen m' = {["A"]} ∪ ∅
    ∧ screen_found m' = true
    ∧ consecutive_no_match m' = 0%nat
    ∧ events m' = [] ++ [EvSeenAdd "A"; EvVisible "A"; EvQuery "A"] ++ [].
Proof.
  eapply (button_timeout_is_swallowed Sim.drv Sim.two_screens
            (Sim.with_button "A") [Sim.with_button "B"]
            (initial (Sim.start Sim.button_never_shows))
            "button.A" "Timeout exceeded.").
  - vm_compute. reflexivity.
  - apply not_elem_of_empty.
  - vm_compute. reflexivity.
  - reflexivity.
  - vm_compute. reflexivity.
Defined.

(** C3 fails on the code: in the third iteration the only visible screen
    is A, whose name is already in the Seen-Set, so no catalog entry is
    visible and unseen and nothing is added or acted on; the idle
    counter, 1 after the second iteration, is reset to 0 and not raised
    to 2. *)
Lemma seen_screen_resets_idle_counter :
  consecutive_no_match (Sim.after Sim.two_screens 2 Sim.flicker) = 1%nat
  ∧ screens_seen (Sim.after Sim.two_screens 2 Sim.flicker) = {["A"]}
  ∧ trace (Sim.after Sim.two_screens 3 Sim.flicker) =
      trace (Sim.after Sim.two_screens 2 Sim.flicker)
        ++ [EvQuery "A"; EvVisible "A"; EvQuery "B"]
  ∧ screens_seen (Sim.after Sim.two_screens 3 Sim.flicker) = {["A"]}
  ∧ consecutive_no_match (Sim.after Sim.two_screens 3 Sim.flicker) = 0%nat.
Proof. by vm_compute. Qed.

Lemma idle_counter_witness :
  (let m := Sim.after Sim.two_screens 2 Sim.flicker in
   let r := iteration Sim.drv Sim.two_screens 0 m in
   ∃ new, events r.2 = new ++ events m ∧
     match r.1 with
     | Returns Again =>
         (Exists is_visible_event new ∧ consecutive_no_match r.2 = 0%nat)
         ∨ (¬ Exists is_visible_event new
            ∧ consecutive_no_match r.2 = (consecutive_no_match m + 1)%nat
            ∧ (consecutive_no_match m + 1 < 30)%nat)
     | Returns (Exit IdleConvergence) =>
         ¬ Exists is_visible_event new
         ∧ consecutive_no_match r.2 = (consecutive_no_match m + 1)%nat
         ∧ (30 ≤ consecutive_no_match m + 1)%nat
     | Returns (Exit FullCoverage) =>
         new = [] ∧ consecutive_no_match r.2 = consecutive_no_match m
     | Raises _ => consecutive_no_match r.2 = consecutive_no_match m
     end)
  ∧ (∃ m', post_wizard_loop Sim.drv (wizard_screens Sim.drv) 30 (Sim.start [])
             = (Returns (Some IdleConvergence), m')
       ∧ screens_seen m' = ∅ ∧ consecutive_no_match m' = 30%nat)
  ∧ (∃ m', iteration Sim.drv Sim.two_screens 0
             (Sim.after Sim.two_screens 2 Sim.flicker) = (Returns Again, m')
       ∧ consecutive_no_match m' = 0%nat
       ∧ screens_seen m' = screens_seen (Sim.after Sim.two_screens 2 Sim.flicker)
       ∧ world m' = {| Sim.clock := 3; Sim.script := [] |}
       ∧ ∃ new, events m' = new ++ events (Sim.after Sim.two_screens 2 Sim.flicker)
           ∧ Forall neutral new).
Proof.
  pose proof (idle_counter_counts_scans_without_visible_screen
                Sim.drv Sim.two_screens) as (Hlaw & _ & _ & _ & Hseen).
  pose proof (idle_counter_counts_scans_without_visible_screen
                Sim.drv (wizard_screens Sim.drv)) as (_ & Hidle & _).
  split; [|split].
  - exact (Hlaw 0%Q (Sim.after Sim.two_screens 2 Sim.flicker)).
  - apply Hidle; [done|lia|].
    vm_compute. repeat split; discriminate.
  - eapply (Hseen 0%Q (Sim.after Sim.two_screens 2 Sim.flicker)
              [] [Sim.with_button "B"] (Sim.with_button "A")).
    + vm_compute. discriminate.
    + apply (bool_decide_unpack _). by vm_compute.
    + reflexivity.
    + reflexivity.
    + vm_compute. reflexivity.
    + apply (bool_decide_unpack _). by vm_compute.
    + vm_compute. reflexivity.
Defined.

(** C4 fails on the code: the nine screens of the catalog show one after
    the other, each takes 29 s to go and the page 4 s to settle.  When
    the last one is dismissed the Seen-Set holds every catalog name and
    307 s have passed; the next check is the budget, and the run fails
    with the timeout error and an empty list of missing screens. *)
Lemma covered_run_fails_on_budget :
  screens_seen (Sim.after (wizard_screens Sim.drv) 9 (Sim.dismissals 29 4 9))
    = all_screen_names (wizard_screens Sim.drv)
  ∧ (Sim.run (wizard_screens Sim.drv) 9 (Sim.dismissals 29 4 9)).1 = Returns None
  ∧ Sim.clock (world (Sim.after (wizard_screens Sim.drv) 9 (Sim.dismissals 29 4 9)))
      = 307%Q
  ∧ (Sim.run (wizard_screens Sim.drv) 10 (Sim.dismissals 29 4 9)).1 =
      Raises (Exception "TimeoutError"
                "Post-wizard automation timed out after 300s. Missing screens: ").
Proof. by vm_compute. Qed.

Lemma covered_exits_witness :
  post_wizard_loop Sim.drv Sim.two_screens 2 (Sim.start Sim.button_never_shows) =
    (Returns (Some FullCoverage),
     printed ["[dsm] post-wizard: All 2 expected screens handled"%string]
       (Sim.after Sim.two_screens 1 Sim.button_never_shows))
  ∧ (post_wizard_loop Sim.drv (wizard_screens Sim.drv) 10
       (Sim.start (Sim.dismissals 29 4 9))).1 =
      Raises (Exception "TimeoutError"
                "Post-wizard automation timed out after 300s. Missing screens: ").
Proof.
  split.
  - apply (proj1 (covered_exits_unless_timed_out Sim.drv Sim.two_screens 1
                    (Sim.start Sim.button_never_shows)
                    (Sim.after Sim.two_screens 1 Sim.button_never_shows)
                    ltac:(by vm_compute) ltac:(by vm_compute))).
    vm_compute. discriminate.
  - apply (proj2 (covered_exits_unless_timed_out Sim.drv (wizard_screens Sim.drv) 9
                    (Sim.start (Sim.dismissals 29 4 9))
                    (Sim.after (wizard_screens Sim.drv) 9 (Sim.dismissals 29 4 9))
                    ltac:(by vm_compute) ltac:(by vm_compute))).
    by vm_compute.
Defined.

(** C5, on a page where six of the nine screens took 59 s each: the
    seventh check finds 354.5 s gone and reports six names seen and three
    not seen. *)
Lemma timeout_reports_witness :
  (post_wizard_loop Sim.drv (wizard_screens Sim.drv) 7
     (Sim.start (Sim.dismissals 29 29 6))).1 =
    Raises (Exception "TimeoutError"
              "Post-wizard automation timed out after 300s. Missing screens: MFA Warning Confirmation, Notification Setup, Notification Setup Reminder")
  ∧ length (sorted (screens_seen
              (Sim.after (wizard_screens Sim.drv) 6 (Sim.dismissals 29 29 6)))) = 6%nat
  ∧ length (sorted (all_screen_names (wizard_screens Sim.drv)
              ∖ screens_seen
                  (Sim.after (wizard_screens Sim.drv) 6 (Sim.dismissals 29 29 6))))
    = 3%nat.
Proof.
  pose proof (timeout_reports_seen_and_unseen Sim.drv (wizard_screens Sim.drv) 6
                (Sim.start (Sim.dismissals 29 29 6))
                (Sim.after (wizard_screens Sim.drv) 6 (Sim.dismissals 29 29 6))
                ltac:(by vm_compute) ltac:(by vm_compute))
    as (Hrun & _ & _ & _ & _ & Hseen & Hunseen).
  split; [|split].
  - rewrite Hrun. by vm_compute.
  - rewrite Hseen. by vm_compute.
  - rewrite Hunseen. by vm_compute.
Defined.

(** C6 fails on the code: the detection predicate of A raises an error
    that is not a timeout, and the loop fails with it at once instead of
    taking A as not visible. *)
Lemma detection_error_aborts_the_loop :
  (Sim.run Sim.two_screens 1 Sim.strict_mode_violation).1 =
    Raises (Exception "Error" "strict mode violation")
  ∧ trace (Sim.after Sim.two_screens 1 Sim.strict_mode_violation) = [EvQuery "A"]
  ∧ stdout (Sim.after Sim.two_screens 1 Sim.strict_mode_violation) =
      ["[dsm] post-wizard: FATAL ERROR handling screen A: Error: strict mode violation"%string].
Proof. by vm_compute. Qed.

Lemma exceptions_by_class_witness :
  (∃ m', scan Sim.drv Sim.two_screens [Sim.with_button "A"; Sim.with_button "B"]
           (initial (Sim.start Sim.query_times_out))
         = scan Sim.drv Sim.two_screens [Sim.with_button "B"] m'
     ∧ world m' = {| Sim.clock := 0; Sim.script := drop 1 Sim.query_times_out |}
     ∧ screens_seen m' = ∅ ∧ screen_found m' = false
     ∧ events m' = [EvQuery "A"])
  ∧ (∃ m', scan Sim.drv Sim.two_screens [Sim.with_button "A"; Sim.with_button "B"]
             (initial (Sim.start Sim.strict_mode_violation))
           = (Raises (Exception "Error" "strict mode violation"), m')
       ∧ world m' = {| Sim.clock := 0; Sim.script := [] |}
       ∧ events m' = [EvQuery "A"]).
Proof.
  split.
  - apply (proj1 (exceptions_are_sorted_by_class Sim.drv Sim.two_screens
                    (Sim.with_button "A") [Sim.with_button "B"]
                    (initial (Sim.start Sim.query_times_out)))
             "Timeout exceeded."%string).
    by vm_compute.
  - apply (proj1 (proj2 (exceptions_are_sorted_by_class Sim.drv Sim.two_screens
                    (Sim.with_button "A") [Sim.with_button "B"]
                    (initial (Sim.start Sim.strict_mode_violation))))
             "Error"%string "strict mode violation"%string).
    by vm_compute.
Defined.

(** C9 fails on the code: in one iteration A is clicked and confirmed
    hidden, the wait for the page to settle times out, and the same scan
    goes on to mark, click and dismiss B. *)
Lemma two_screens_dismissed_in_one_iteration :
  (Sim.run Sim.two_screens 1 Sim.slow_to_settle).1 = Returns None
  ∧ trace (Sim.after Sim.two_screens 1 Sim.slow_to_settle) =
      [ EvQuery "A"; EvVisible "A"; EvSeenAdd "A"; EvClick "A"; EvHidden "A";
        EvQuery "B"; EvVisible "B"; EvSeenAdd "B"; EvClick "B"; EvHidden "B";
        EvSettled "B" ].
Proof. by vm_compute. Qed.

End PostWizardExamples.

(** ** Properties of the version scraper *)

Module ScraperProofs.

Import Scraper.
#[local] Open Scope list_scope.

Lemma latest_series_found (before after_ : list json) (ver : json) (series : string) :
  Forall (λ v, getitem v (JStr "value") = Returns (JStr "all_versions")) before →
  getitem ver (JStr "value") = Returns (JStr series) →
  series ≠ "all_versions"%string →
  latest_series_of (before ++ ver :: after_) = Returns (JStr series).
Proof.
  intros Hbefore Hver Hne. induction Hbefore as [|v before Hv _ IH]; simpl.
  - rewrite Hver. simpl.
    destruct (String.eqb_spec series "all_versions"); [done|reflexivity].
  - rewrite Hv. simpl. exact IH.
Qed.

Lemma index_first {A} (x : A) (l : list A) : index (x :: l) 0 = Returns x.
Proof.
  unfold index. cbn [length Z.ltb Z.compare Z.add].
  replace ((0 <=? 0)%Z && (0 <? Z.of_nat (S (length l)))%Z) with true; [done|].
  symmetry. apply andb_true_iff. split; [done|]. apply Z.ltb_lt. lia.
Qed.

Lemma truthy_series (series : string) :
  series ≠ EmptyString → truthy (JStr series) = true.
Proof. intros H. simpl. by destruct (String.eqb_spec series EmptyString). Qed.

(** Lines 119-141 once the scrape gave a result. *)
Lemma main_of_result (a : args) (github_output : option string)
    (fetched : outcome json) (fs : filesystem) (result : release) :
  scrape_dsm_version fetched = Returns (Some result) →
  (update_file a = true → file_of fs "dsm-version.sh" ∉ refused fs) →
  (∀ path, github_output = Some path → file_of fs path ∉ refused fs) →
  let r := main a github_output fetched fs in
  exit_status r = Exited 0
  ∧ stdout r =
      (if json_flag a || negb (update_file a)
       then dumps_indent2 (output result) ++ nl else EmptyString)%string
  ∧ refused (disk r) = refused fs.
Proof.
  intros Hs Hupd Hgh. unfold main. rewrite Hs.
  assert (∃ fs1, (if update_file a
                  then update_version_file (version result) (build result) fs
                  else (Returns (), fs)) = (Returns (), fs1)
                 ∧ refused fs1 = refused fs ∧ file_of fs1 = file_of fs)
    as (fs1 & -> & Hfs1 & Hof1).
  { destruct (update_file a); [|by eexists].
    unfold update_version_file, write_file. cbn zeta.
    destruct (decide _) as [Hin|_]; [by destruct (Hupd eq_refl)|by eexists]. }
  assert (∃ fs2, match github_output with
                 | Some path =>
                     if negb (String.eqb path EmptyString)
                     then append_file path
                            ("version=" ++ version result ++ nl ++ "build="
                               ++ build result ++ nl)%string fs1
                     else (Returns (), fs1)
                 | None => (Returns (), fs1)
                 end = (Returns (), fs2) ∧ refused fs2 = refused fs)
    as (fs2 & -> & Hfs2).
  { destruct github_output as [path|]; [|by eexists].
    destruct (negb _); [|by eexists].
    unfold append_file. cbn zeta. destruct (decide _) as [Hin|_]; [|by eexists].
    rewrite Hfs1, Hof1 in Hin. by destruct (Hgh path eq_refl). }
  by destruct (json_flag a || negb (update_file a)).
Qed.

(** C7: for a payload whose first series other than ["all_versions"], of
    a name that is not empty, has a first entry with the version string
    ["7.2.2-72806 Update 4"], the scraper extracts version 7.2.2 and
    build 72806, and run without flags it prints, and prints only, the
    JSON object with the members version, build and full_version (as
    [json.dumps] with [indent=2] writes it, followed by a newline). *)
Theorem scraper_reads_version_and_build
    (data info versions versions_dict ver latest : json)
    (before after_ entries : list json) (series : string)
    (github_output : option string) (fs : filesystem) :
  getitem data (JStr "info") = Returns info →
  getitem info (JStr "verList") = Returns (JList (before ++ ver :: after_)) →
  Forall (λ v, getitem v (JStr "value") = Returns (JStr "all_versions")) before →
  getitem ver (JStr "value") = Returns (JStr series) →
  series ≠ "all_versions"%string →
  series ≠ EmptyString →
  getitem info (JStr "versions") = Returns versions →
  getitem versions (JStr "DSM") = Returns versions_dict →
  getitem versions_dict (JStr series) = Returns (JList (latest :: entries)) →
  getitem latest (JStr "version") = Returns (JStr "7.2.2-72806 Update 4") →
  (∀ path, github_output = Some path → file_of fs path ∉ refused fs) →
  let r := main {| update_file := false; json_flag := false |}
             github_output (Returns data) fs in
  let object :=
    [ ("version", "7.2.2"); ("build", "72806"); ("full_version", "7.2.2-72806") ]%string in
  scrape_dsm_version (Returns data)
    = Returns (Some {| version := "7.2.2"; build := "72806" |})
  ∧ exit_status r = Exited 0
  ∧ stdout r = (dumps_indent2 object ++ nl)%string
  ∧ read_object (stdout r) = Some object
  ∧ read_object (dumps object) = Some object.
Proof.
  intros Hinfo Hlist Hbefore Hver Hne Hnonempty Hversions Hdsm Hseries Hlatest Hgh
    r object.
  assert (scrape_dsm_version (Returns data)
            = Returns (Some {| version := "7.2.2"; build := "72806" |})) as Hs.
  { unfold scrape_dsm_version. rewrite Hinfo. cbn [and_then].
    rewrite Hlist, Hversions. cbn [and_then]. rewrite Hdsm. cbn [and_then].
    unfold pick_version. cbn [iterate and_then].
    rewrite (latest_series_found before after_ ver series) by done.
    cbn [and_then]. rewrite truthy_series by done. cbn [negb].
    rewrite Hseries. cbn [truthy negb getitem]. rewrite index_first.
    cbn [and_then]. rewrite Hlatest. cbn [and_then]. by vm_compute. }
  split; [exact Hs|].
  destruct (main_of_result {| update_file := false; json_flag := false |}
              github_output (Returns data) fs _ Hs ltac:(done) Hgh)
    as (Hexit & Hout & _).
  fold r in Hexit, Hout. split; [exact Hexit|]. rewrite Hout.
  by vm_compute.
Qed.

Lemma scraper_reads_version_witness :
  scrape_dsm_version (Returns sample_payload)
    = Returns (Some {| version := "7.2.2"; build := "72806" |})
  ∧ exit_status (main {| update_file := false; json_flag := false |} None
                   (Returns sample_payload) empty_disk) = Exited 0.
Proof.
  pose proof (scraper_reads_version_and_build sample_payload
                _ _ _ _ _
                [JDict [("name", JStr "All versions"); ("value", JStr "all_versions")]]
                [JDict [("name", JStr "7.1 Series"); ("value", JStr "7.1")]]
                [JDict [("version", JStr "7.2.2-72806 Update 3")]]
                "7.2" None empty_disk
                eq_refl eq_refl
                ltac:(by repeat constructor) eq_refl
                ltac:(discriminate) ltac:(discriminate)
                eq_refl eq_refl eq_refl eq_refl ltac:(discriminate))
    as (H1 & H2 & _).
  by split.
Defined.





End ScraperProofs.


(** ** More on the post-wizard loop *)

Module PostWizardMoreProofs.

Import PostWizard PostWizardProofs.
#[local] Open Scope list_scope.

Section Exits.

Context {World : Type} (drv : driver World) (catalog : list (screen World)).
Implicit Types m : machine World.

(** Within a scan the Seen-Set changes only once [screen_found] is set. *)
Definition same_seen_or_found (m0 m : machine World) : Prop :=
  screens_seen m = screens_seen m0 ∨ screen_found m = true.

Lemma handle_screen_keeps_found (entry : screen World) :
  moves (λ m, screen_found m = true) (handle_screen drv catalog entry)
    (λ m, screen_found m = true).
Proof. unfold handle_screen. cbv zeta. walk assumption. Qed.

Lemma check_screen_seen_or_found m0 (entry : screen World) :
  moves (same_seen_or_found m0) (check_screen drv catalog entry)
    (same_seen_or_found m0).
Proof.
  unfold check_screen.
  apply (moves_bind _ (same_seen_or_found m0) _); [prim; assumption| |done].
  intros _.
  apply (moves_bind _ (same_seen_or_found m0) _); [prim; assumption| |done].
  intros [|]; [|apply moves_ret].
  apply (moves_bind _ (λ m, screen_found m = true) _); [prim; done| |by right].
  intros _.
  apply (moves_weaken _ (λ m, screen_found m = true) _ (λ m, screen_found m = true));
    [|done|by right].
  apply (moves_bind _ (λ m, screen_found m = true) _); [prim; assumption| |done].
  intros seen. destruct (decide _); [apply moves_ret|].
  apply handle_screen_keeps_found.
Qed.

Lemma scan_seen_or_found m0 (screens : list (screen World)) :
  moves (same_seen_or_found m0) (scan drv catalog screens) (same_seen_or_found m0).
Proof.
  induction screens as [|entry rest IH]; simpl; [apply moves_ret|].
  apply (moves_bind _ (same_seen_or_found m0) _); [| |done].
  - unfold scan_screen.
    apply (moves_try _ (same_seen_or_found m0) _);
      [apply check_screen_seen_or_found| |done].
    intros [msg|cls msg|cls msg]; walk assumption.
  - intros [|]; [apply IH|apply moves_ret].
Qed.

(** What one iteration leaves of the counter and of the Seen-Set, by the
    way it ends. *)
Definition ends_well (r : outcome (option exit_path)) m : Prop :=
  match r with
  | Returns (Some FullCoverage) =>
      screens_seen m = all_screen_names catalog ∧ (consecutive_no_match m < 30)%nat
  | Returns (Some IdleConvergence) =>
      screens_seen m ≠ all_screen_names catalog ∧ consecutive_no_match m = 30%nat
  | _ => (consecutive_no_match m < 30)%nat
  end.

Lemma iteration_ends_well (start_time : Q) m :
  (consecutive_no_match m < 30)%nat →
  let r := iteration drv catalog start_time m in
  ends_well (match r.1 with
             | Returns Again => Returns None
             | Returns (Exit p) => Returns (Some p)
             | Raises e => Raises e
             end) r.2.
Proof.
  intros Hc. cbn zeta.
  destruct (Qlt_le_dec (inject_Z 300)
              (time_time drv (world m) - start_time)) as [Hlt|Hle].
  { by rewrite (iteration_timeout drv catalog) by done. }
  apply Qle_not_lt in Hle.
  destruct (decide (screens_seen m = all_screen_names catalog)) as [Heq|Hne].
  { by rewrite (iteration_covered drv catalog) by done. }
  rewrite (iteration_scan drv catalog) by done.
  assert (found_iff_visible m (before_scan drv m)) as H0.
  { exists []. repeat split; try done. intros H. by apply Exists_nil in H. }
  pose proof (scan_found drv catalog m catalog (before_scan drv m) H0)
    as (new & _ & _ & Hcnm).
  pose proof (scan_seen_or_found m catalog (before_scan drv m) (or_introl eq_refl))
    as Hseen.
  destruct (scan drv catalog catalog (before_scan drv m)) as [[[]|e] m2];
    simpl in *; [|lia].
  unfold after_scan. destruct (screen_found m2) eqn:Hf.
  { unfold ends_well. cbn [fst snd consecutive_no_match]. lia. }
  destruct Hseen as [Hseen|]; [|congruence].
  destruct (30 <=? consecutive_no_match m2 + 1)%nat eqn:Hle30;
    unfold ends_well;
    cbn [fst snd printed consecutive_no_match screens_seen].
  - apply Nat.leb_le in Hle30. split; [congruence|lia].
  - apply Nat.leb_gt in Hle30. lia.
Qed.

Lemma run_ends_well (k : nat) (w : World) :
  let r := post_wizard_loop drv catalog k w in ends_well r.1 r.2.
Proof.
  cbn zeta. unfold post_wizard_loop. induction k as [|k IH].
  - simpl. lia.
  - rewrite while_true_snoc.
    destruct (while_true drv catalog k _ _) as [[[p|]|e] m]; simpl in *; try done.
    pose proof (iteration_ends_well (time_time drv w) m IH) as H. cbn zeta in H.
    by destruct (iteration drv catalog (time_time drv w) m) as [[[|p]|e] m'].
Qed.

(** The way the loop ends tells whether every screen was seen: after the
    full-coverage exit the Seen-Set is the set of catalog names, after the
    idle exit it is not. *)
Theorem exit_path_tells_coverage (k : nat) (w : World) :
  let r := post_wizard_loop drv catalog k w in
  (r.1 = Returns (Some FullCoverage) → screens_seen r.2 = all_screen_names catalog)
  ∧ (r.1 = Returns (Some IdleConvergence) →
     screens_seen r.2 ≠ all_screen_names catalog).
Proof.
  cbn zeta. pose proof (run_ends_well k w) as H. cbn zeta in H.
  destruct (post_wizard_loop drv catalog k w) as [r m]. simpl in *.
  split; intros ->; simpl in H; tauto.
Qed.

(** The idle counter never passes 30: it is below 30 as long as the loop
    runs, and exactly 30 when the loop leaves through the idle path. *)
Theorem idle_counter_stays_within_30 (k : nat) (w : World) :
  let r := post_wizard_loop drv catalog k w in
  (consecutive_no_match r.2 ≤ 30)%nat
  ∧ (r.1 = Returns None → (consecutive_no_match r.2 < 30)%nat)
  ∧ (r.1 = Returns (Some IdleConvergence) ↔ consecutive_no_match r.2 = 30%nat).
Proof.
  cbn zeta. pose proof (run_ends_well k w) as H. cbn zeta in H.
  destruct (post_wizard_loop drv catalog k w) as [[[[|]|]|e] m]; simpl in *;
    (split; [lia|]); (split; [intros; try done; lia|]); split; intros;
    try done; try lia.
  all: destruct H; lia.
Qed.

End Exits.

End PostWizardMoreProofs.
